(** * DeepLearningNumpy: the convolution notebook, embedded and verified

    A shallow embedding of [Convolution/Convolution.ipynb]: the classes
    [convLayer], [MaxPool], [ReLU] and [l2_loss], the functions
    [model_forward] and [model_backward], and the gradient-check loop.

    Modelling conventions.
    - A numpy array is a shape together with an accessor from multi-indices
      to entries ([ndarray]); slicing, broadcasting and in-place updates
      follow numpy's rules, and every place where numpy or Python raises is
      an explicit [Raise].
    - Entries are exact rationals ([Qc]); rounding of float64 is not
      modelled. What is proved below is about shapes, raised exceptions,
      which places are written, signs, and the value of an entry as an
      exact sum of products, which float64 follows up to rounding. The
      comparison with [epsilon] in the gradient check is made on exact
      values; no theorem below depends on which way it goes.
    - Python integers (kernel size, stride, padding, slice bounds) are [Z];
      [//] is [Z.div], which floors like Python's.
    - The layers take arrays of rank 3 (channel, row, column), as in the
      notebook. *)

From Stdlib Require Import String List ZArith Lia Bool QArith Qcanon.
Import ListNotations.

Set Implicit Arguments.

(** ** Exceptions and results *)

Inductive exn : Type :=
| ValueError
| AttributeError
| TypeError
| IndexError
| ZeroDivisionError
| AssertionError.

Definition exn_name (e : exn) : string :=
  match e with
  | ValueError => "ValueError"%string
  | AttributeError => "AttributeError"%string
  | TypeError => "TypeError"%string
  | IndexError => "IndexError"%string
  | ZeroDivisionError => "ZeroDivisionError"%string
  | AssertionError => "AssertionError"%string
  end.

Inductive result (A : Type) : Type :=
| Ok (a : A)
| Raise (e : exn).

Arguments Ok {A} a.
Arguments Raise {A} e.

Definition bind {A B : Type} (m : result A) (f : A -> result B) : result B :=
  match m with
  | Ok a => f a
  | Raise e => Raise e
  end.

Notation "x <- m ;; k" := (bind m (fun x => k))
  (at level 61, m at next level, right associativity).
Notation "' pat <- m ;; k" := (bind m (fun x => match x with pat => k end))
  (at level 61, pat pattern, m at next level, right associativity).

(** [raises r name]: the call failed with the exception class [name]. *)
Definition raises {A : Type} (r : result A) (name : string) : bool :=
  match r with
  | Ok _ => false
  | Raise e => String.eqb (exn_name e) name
  end.

(** [for i in l: s = body(i, s)], stopping at the first exception. *)
Fixpoint for_loop {I S : Type} (l : list I) (body : I -> S -> result S) (s : S)
  : result S :=
  match l with
  | [] => Ok s
  | i :: l' =>
      match body i s with
      | Ok s' => for_loop l' body s'
      | Raise e => Raise e
      end
  end.

Definition range (n : nat) : list nat := seq 0 n.

(** ** Scalars *)

Open Scope Qc_scope.

Definition Qceqb (a b : Qc) : bool := Qeq_bool a b.
Definition Qcleb (a b : Qc) : bool := Qle_bool a b.
Definition Qcltb (a b : Qc) : bool := negb (Qle_bool b a).
Definition Qcmax (a b : Qc) : Qc := if Qcleb a b then b else a.
Definition Qcabs (a : Qc) : Qc := if Qcleb 0 a then a else - a.
Definition QcofZ (z : Z) : Qc := Q2Qc (inject_Z z).

(** [sum_range n f] is f 0 + ... + f (n-1), accumulated from the left. *)
Definition sum_range (n : nat) (f : nat -> Qc) : Qc :=
  fold_left (fun acc i => acc + f i) (range n) 0.

(** ** Arrays *)

Record ndarray (A : Type) : Type := mk_nd {
  shape : list nat;
  data : list nat -> A
}.

Arguments mk_nd {A} shape data.

Definition bdim (a b : nat) : option nat :=
  if (a =? b)%nat then Some a
  else if (a =? 1)%nat then Some b
  else if (b =? 1)%nat then Some a
  else None.

(** Broadcasting aligns shapes at their last axis. *)
Fixpoint bshape_rev (s1 s2 : list nat) : option (list nat) :=
  match s1, s2 with
  | [], s => Some s
  | s, [] => Some s
  | a :: s1', b :: s2' =>
      match bdim a b, bshape_rev s1' s2' with
      | Some d, Some s => Some (d :: s)
      | _, _ => None
      end
  end.

Definition broadcast_shapes (s1 s2 : list nat) : option (list nat) :=
  option_map (@rev nat) (bshape_rev (rev s1) (rev s2)).

(** The index into an operand of shape [s] that a broadcast result reads at
    result index [idx]: the trailing axes, with every axis of length 1
    pinned to 0. *)
Fixpoint pin (s idx : list nat) : list nat :=
  match s, idx with
  | n :: s', i :: idx' => (if (n =? 1)%nat then 0%nat else i) :: pin s' idx'
  | _, _ => []
  end.

Definition bindex (s idx : list nat) : list nat :=
  pin s (skipn (length idx - length s) idx).

(** Elementwise binary operation with broadcasting ([a * b], [a - b],
    [a == b], ...). *)
Definition map2_nd {A B C : Type} (f : A -> B -> C) (a : ndarray A) (b : ndarray B)
  : result (ndarray C) :=
  match broadcast_shapes (shape a) (shape b) with
  | Some s =>
      Ok (mk_nd s (fun idx => f (data a (bindex (shape a) idx))
                              (data b (bindex (shape b) idx))))
  | None => Raise ValueError
  end.

Definition map_nd {A B : Type} (f : A -> B) (a : ndarray A) : ndarray B :=
  mk_nd (shape a) (fun idx => f (data a idx)).

(** [np.zeros(shape)] with Python integers: a negative length raises. *)
Definition np_zeros (s : list Z) : result (ndarray Qc) :=
  if forallb (fun z => 0 <=? z)%Z s
  then Ok (mk_nd (map Z.to_nat s) (fun _ => 0))
  else Raise ValueError.

Definition zeros (s : list nat) : ndarray Qc := mk_nd s (fun _ => 0).
Definition ones (s : list nat) : ndarray Qc := mk_nd s (fun _ => 1).

(** Python slice [lo:hi] on an axis of length [n]: a negative bound counts
    from the end, then both are clipped to [0, n]. The result is the first
    index and the number of indices. *)
Definition slice_bound (n : nat) (i : Z) : nat :=
  Z.to_nat (Z.min (Z.of_nat n) (if (i <? 0)%Z then i + Z.of_nat n else i)%Z).

Definition slice (n : nat) (lo hi : Z) : nat * nat :=
  (slice_bound n lo, slice_bound n hi - slice_bound n lo)%nat.

(** [x[:, r0:r1, c0:c1]] *)
Definition getitem_box {A : Type} (x : ndarray A) (r0 r1 c0 c1 : Z)
  : result (ndarray A) :=
  match shape x with
  | D :: H :: W :: rest =>
      let '(rs, rl) := slice H r0 r1 in
      let '(cs, cl) := slice W c0 c1 in
      Ok (mk_nd (D :: rl :: cl :: rest)
            (fun idx =>
               match idx with
               | d :: r :: c :: t => data x (d :: rs + r :: cs + c :: t)%nat
               | _ => data x idx
               end))
  | _ => Raise IndexError
  end.

(** [x[:, i, j]] for [i], [j] drawn from a [range]. *)
Definition getitem_col {A : Type} (x : ndarray A) (i j : nat) : result (ndarray A) :=
  match shape x with
  | D :: H :: W :: rest =>
      if (i <? H)%nat && (j <? W)%nat
      then Ok (mk_nd (D :: rest)
                 (fun idx =>
                    match idx with
                    | d :: t => data x (d :: i :: j :: t)
                    | [] => data x idx
                    end))
      else Raise IndexError
  | _ => Raise IndexError
  end.

(** In-place operations write through a view; the right-hand side must
    broadcast to the shape of the view. (For a plain assignment numpy
    also drops leading axes of length 1 of the right-hand side; with
    rank-3 inputs the layers never assign an array of higher rank than
    the view.) *)
Definition broadcasts_to (vs target : list nat) : bool :=
  match broadcast_shapes vs target with
  | Some s => if list_eq_dec Nat.eq_dec s target then true else false
  | None => false
  end.

(** [a[:, i, j] = f(a[:, i, j], v)] *)
Definition iop_col (f : Qc -> Qc -> Qc) (a : ndarray Qc) (i j : nat) (v : ndarray Qc)
  : result (ndarray Qc) :=
  match shape a with
  | D :: H :: W :: rest =>
      if (i <? H)%nat && (j <? W)%nat then
        if broadcasts_to (shape v) (D :: rest) then
          Ok (mk_nd (shape a)
                (fun idx =>
                   match idx with
                   | d :: i' :: j' :: t =>
                       if (i' =? i)%nat && (j' =? j)%nat
                       then f (data a idx) (data v (bindex (shape v) (d :: t)))
                       else data a idx
                   | _ => data a idx
                   end))
        else Raise ValueError
      else Raise IndexError
  | _ => Raise IndexError
  end.

(** [a[:, r0:r1, c0:c1] = f(a[:, r0:r1, c0:c1], v)] *)
Definition iop_box (f : Qc -> Qc -> Qc) (a : ndarray Qc) (r0 r1 c0 c1 : Z)
  (v : ndarray Qc) : result (ndarray Qc) :=
  match shape a with
  | D :: H :: W :: rest =>
      let '(rs, rl) := slice H r0 r1 in
      let '(cs, cl) := slice W c0 c1 in
      if broadcasts_to (shape v) (D :: rl :: cl :: rest) then
        Ok (mk_nd (shape a)
              (fun idx =>
                 match idx with
                 | d :: r :: c :: t =>
                     if (rs <=? r)%nat && (r <? rs + rl)%nat
                        && (cs <=? c)%nat && (c <? cs + cl)%nat
                     then f (data a idx)
                            (data v (bindex (shape v) (d :: r - rs :: c - cs :: t)%nat))
                     else data a idx
                 | _ => data a idx
                 end))
      else Raise ValueError
  | _ => Raise IndexError
  end.

(** [a = f(a, v)] on the whole array ([a += v]). *)
Definition iop_all (f : Qc -> Qc -> Qc) (a v : ndarray Qc) : result (ndarray Qc) :=
  if broadcasts_to (shape v) (shape a) then
    Ok (mk_nd (shape a)
          (fun idx => f (data a idx) (data v (bindex (shape v) idx))))
  else Raise ValueError.

Definition assign (old new : Qc) : Qc := new.

(** [a[i0, i1, ...] = v] with indices drawn from the array's own ranges. *)
Definition in_bounds (s idx : list nat) : bool :=
  (length idx =? length s)%nat
  && forallb (fun p => (fst p <? snd p)%nat) (combine idx s).

Definition list_nat_eqb (a b : list nat) : bool :=
  if list_eq_dec Nat.eq_dec a b then true else false.

Definition getitem (a : ndarray Qc) (idx : list nat) : result Qc :=
  if in_bounds (shape a) idx then Ok (data a idx) else Raise IndexError.

Definition setitem (a : ndarray Qc) (idx : list nat) (v : Qc) : result (ndarray Qc) :=
  if in_bounds (shape a) idx
  then Ok (mk_nd (shape a) (fun k => if list_nat_eqb k idx then v else data a k))
  else Raise IndexError.

(** Sum of all entries of an array of shape [s], first axis outermost. *)
Fixpoint sum_all (s : list nat) (f : list nat -> Qc) : Qc :=
  match s with
  | [] => f []
  | n :: s' => sum_range n (fun i => sum_all s' (fun idx => f (i :: idx)))
  end.

(** [np.sum(a)] *)
Definition np_sum (a : ndarray Qc) : Qc := sum_all (shape a) (data a).

(** [np.sum(a, (1,2,3))] on a rank-4 array. *)
Definition np_sum_123 (a : ndarray Qc) : result (ndarray Qc) :=
  match shape a with
  | [C; D; K1; K2] =>
      Ok (mk_nd [C]
            (fun idx =>
               match idx with
               | c :: _ => sum_all [D; K1; K2] (fun t => data a (c :: t))
               | [] => 0
               end))
  | _ => Raise ValueError
  end.

(** [np.sum(a, axis=0)] *)
Definition np_sum_0 (a : ndarray Qc) : result (ndarray Qc) :=
  match shape a with
  | C :: rest => Ok (mk_nd rest (fun idx => sum_range C (fun c => data a (c :: idx))))
  | [] => Raise ValueError
  end.

(** The entries of the window [d, 0..h-1, 0..w-1], row by row. *)
Definition window_values (a : ndarray Qc) (d h w : nat) (t : list nat) : list Qc :=
  flat_map (fun r => map (fun c => data a (d :: r :: c :: t)) (range w)) (range h).

Definition amax_list (l : list Qc) : Qc :=
  match l with
  | [] => 0
  | v :: l' => fold_left Qcmax l' v
  end.

(** [np.amax(a, axis=(1,2))]; a reduction over no elements raises. *)
Definition np_amax_12 (a : ndarray Qc) : result (ndarray Qc) :=
  match shape a with
  | D :: h :: w :: rest =>
      if ((h =? 0) || (w =? 0))%nat then Raise ValueError
      else Ok (mk_nd (D :: rest)
                 (fun idx =>
                    match idx with
                    | d :: t => amax_list (window_values a d h w t)
                    | [] => 0
                    end))
  | _ => Raise ValueError
  end.

(** Row-major position to multi-index, for [reshape]. *)
Fixpoint unravel (s : list nat) (k : nat) : list nat :=
  match s with
  | [] => []
  | n :: s' =>
      let m := fold_right Nat.mul 1%nat s' in
      (k / m)%nat :: unravel s' (k mod m)
  end.

Definition size (s : list nat) : nat := fold_right Nat.mul 1%nat s.

(** [v.reshape(-1, 1, 1)] *)
Definition reshape_m1_1_1 {A : Type} (v : ndarray A) : ndarray A :=
  mk_nd [size (shape v); 1%nat; 1%nat]
    (fun idx => data v (unravel (shape v) (hd 0%nat idx))).

(** [v.reshape(n, -1, 1, 1)]: the free axis must come out whole, and an
    empty array leaves it undetermined. *)
Definition reshape_n_m1_1_1 {A : Type} (n : nat) (v : ndarray A) : result (ndarray A) :=
  let sz := size (shape v) in
  if ((n =? 0) || (sz =? 0) || negb (sz mod n =? 0))%nat then Raise ValueError
  else Ok (mk_nd [n; (sz / n)%nat; 1%nat; 1%nat]
             (fun idx =>
                match idx with
                | a :: b :: _ => data v (unravel (shape v) (a * (sz / n) + b)%nat)
                | _ => data v idx
                end)).

(** [np.where(cond, a, b)] *)
Definition np_where (cond : ndarray bool) (a b : ndarray Qc) : result (ndarray Qc) :=
  match broadcast_shapes (shape a) (shape b) with
  | Some sab =>
      match broadcast_shapes (shape cond) sab with
      | Some s =>
          Ok (mk_nd s (fun idx =>
                         if data cond (bindex (shape cond) idx)
                         then data a (bindex (shape a) idx)
                         else data b (bindex (shape b) idx)))
      | None => Raise ValueError
      end
  | None => Raise ValueError
  end.

(** [np.pad(x, ((0,0),(p,p),(p,p)), 'constant')] *)
Definition np_pad (x : ndarray Qc) (p : Z) : result (ndarray Qc) :=
  match shape x with
  | [D; H; W] =>
      if (p <? 0)%Z then Raise ValueError
      else
        let q := Z.to_nat p in
        Ok (mk_nd [D; H + 2 * q; W + 2 * q]%nat
              (fun idx =>
                 match idx with
                 | [d; r; c] =>
                     if (q <=? r)%nat && (r <? q + H)%nat
                        && (q <=? c)%nat && (c <? q + W)%nat
                     then data x [d; r - q; c - q]%nat
                     else 0
                 | _ => 0
                 end))
  | _ => Raise ValueError
  end.

(** [np.maximum(x, 0.)] *)
Definition np_maximum0 (x : ndarray Qc) : ndarray Qc := map_nd (fun v => Qcmax v 0) x.

(** ** The convolution layer *)

Record convLayer : Type := mk_convLayer {
  kernelsize : Z;
  stride : Z;
  pad : Z;
  in_channels : Z;
  out_channels : Z;
  W : ndarray Qc;
  conv_cache : option (ndarray Qc);
  gradW : option (ndarray Qc)
}.

(** [convLayer.__init__]; [sample] stands for the draw of
    [np.random.normal(0, 1, (outDim, inputDim, kernelsize, kernelsize))]. *)
Definition convLayer_init (ks inputDim outDim st pd : Z) (sample : list nat -> Qc)
  : result convLayer :=
  if forallb (fun z => 0 <=? z)%Z [outDim; inputDim; ks; ks]
  then Ok (mk_convLayer ks st pd inputDim outDim
             (mk_nd (map Z.to_nat [outDim; inputDim; ks; ks]) sample) None None)
  else Raise ValueError.

Definition output_size (self : convLayer) (x_width : nat) : Z :=
  ((Z.of_nat x_width - kernelsize self + 2 * pad self) / stride self + 1)%Z.

(** The body of the double loop of [convLayer.__call__]. *)
Definition conv_forward_body (self : convLayer) (x : ndarray Qc) (ij : nat * nat)
  (output : ndarray Qc) : result (ndarray Qc) :=
  let '(i, j) := ij in
  let st := stride self in
  let ks := kernelsize self in
  x_slice <- getitem_box x (Z.of_nat i * st) (Z.of_nat i * st + ks)
                           (Z.of_nat j * st) (Z.of_nat j * st + ks) ;;
  prod <- map2_nd Qcmult (W self) x_slice ;;
  s <- np_sum_123 prod ;;
  iop_col Qcplus output i j s.

(** [for i in range(n): for j in range(m)] visits the pairs row by row. *)
Definition range2 (n m : nat) : list (nat * nat) :=
  flat_map (fun i => map (fun j => (i, j)) (range m)) (range n).

(** [convLayer.__call__]: the output and the layer with its new cache. *)
Definition convLayer_call (self : convLayer) (x : ndarray Qc)
  : result (ndarray Qc * convLayer) :=
  match shape x with
  | [D; x_width; x_height] =>
      xp <- np_pad x (pad self) ;;
      if (stride self =? 0)%Z then Raise ZeroDivisionError
      else
        let osz := output_size self x_width in
        output <- np_zeros [out_channels self; osz; osz] ;;
        output <- for_loop (range2 (nth 1 (shape output) 0%nat)
                                   (nth 2 (shape output) 0%nat))
                    (conv_forward_body self xp) output ;;
        Ok (output,
            mk_convLayer (kernelsize self) (stride self) (pad self)
              (in_channels self) (out_channels self) (W self)
              (Some xp) (gradW self))
  | _ => Raise ValueError
  end.

(** The body of the double loop of [convLayer.backward], on the pair
    ([dX], [dW]). *)
Definition conv_backward_body (self : convLayer) (x delta : ndarray Qc) (C : nat)
  (hw : nat * nat) (acc : ndarray Qc * ndarray Qc)
  : result (ndarray Qc * ndarray Qc) :=
  let '(h, w) := hw in
  let '(dX, dW) := acc in
  let st := stride self in
  let ks := kernelsize self in
  dcol <- getitem_col delta h w ;;
  d4 <- reshape_n_m1_1_1 C dcol ;;
  dx <- map2_nd Qcmult (W self) d4 ;;
  sdx <- np_sum_0 dx ;;
  dX <- iop_box Qcplus dX (Z.of_nat h * st) (Z.of_nat h * st + ks)
                          (Z.of_nat w * st) (Z.of_nat w * st + ks) sdx ;;
  x_slice <- getitem_box x (Z.of_nat h * st) (Z.of_nat h * st + ks)
                           (Z.of_nat w * st) (Z.of_nat w * st + ks) ;;
  dcol' <- getitem_col delta h w ;;
  d4' <- reshape_n_m1_1_1 C dcol' ;;
  t <- map2_nd Qcmult x_slice d4' ;;
  dW <- iop_all Qcplus dW t ;;
  Ok (dX, dW).

(** The two accumulators of [backward] once its loop has run: [dX] over the
    padded input, and [dW]. *)
Definition conv_backward_loop (self : convLayer) (delta : ndarray Qc)
  : result (ndarray Qc * ndarray Qc) :=
  match shape delta with
  | [C; H; Wd] =>
      match conv_cache self with
      | None => Raise AttributeError
      | Some x =>
          for_loop (range2 H Wd) (conv_backward_body self x delta C)
            (zeros (shape x), zeros (shape (W self)))
      end
  | _ => Raise ValueError
  end.

(** [convLayer.backward]: the returned array and the layer with its new
    [gradW]. *)
Definition convLayer_backward (self : convLayer) (delta : ndarray Qc)
  : result (ndarray Qc * convLayer) :=
  '(dX, dW) <- conv_backward_loop self delta ;;
  ret <- getitem_box dX (pad self) (- pad self) (pad self) (- pad self) ;;
  Ok (ret,
      mk_convLayer (kernelsize self) (stride self) (pad self)
        (in_channels self) (out_channels self) (W self)
        (conv_cache self) (Some dW)).

(** ** The max-pool layer

    [MaxPool.backward] updates the array held in [self.cache] in place and
    returns that very array, so the cache lives in a store of array objects
    and the layer holds a reference to it. *)

Definition ref : Type := nat.
Definition store : Type := list (ndarray Qc).

Definition alloc (a : ndarray Qc) (st : store) : ref * store :=
  (List.length st, st ++ [a]).

(** References held by a layer are always allocated. *)
Definition deref (st : store) (r : ref) : ndarray Qc := nth r st (zeros []).

Fixpoint store_set (st : store) (r : ref) (a : ndarray Qc) : store :=
  match st, r with
  | [], _ => []
  | _ :: st', O => a :: st'
  | b :: st', S r' => b :: store_set st' r' a
  end.

Record MaxPool : Type := mk_MaxPool {
  pool_cache : option ref
}.

Definition MaxPool_init : MaxPool := mk_MaxPool None.

(** The body of the double loop of [MaxPool.__call__], on the output and
    the cache array. *)
Definition pool_forward_body (x : ndarray Qc) (ij : nat * nat)
  (acc : ndarray Qc * ndarray Qc) : result (ndarray Qc * ndarray Qc) :=
  let '(i, j) := ij in
  let '(output, cache) := acc in
  x_slice <- getitem_box x (Z.of_nat i * 2) (Z.of_nat i * 2 + 2)
                           (Z.of_nat j * 2) (Z.of_nat j * 2 + 2) ;;
  m <- np_amax_12 x_slice ;;
  output <- iop_col assign output i j m ;;
  col <- getitem_col output i j ;;
  eq <- map2_nd Qceqb x_slice (reshape_m1_1_1 col) ;;
  let D := nth 0 (shape output) 0%nat in
  idx_map <- np_where eq (ones [D; 2; 2]%nat) (zeros [D; 2; 2]%nat) ;;
  cache <- iop_box assign cache (Z.of_nat i * 2) (Z.of_nat i * 2 + 2)
                                (Z.of_nat j * 2) (Z.of_nat j * 2 + 2) idx_map ;;
  Ok (output, cache).

(** A loop body that works on the object behind a reference. *)
Definition on_ref {S : Type} (r : ref)
  (body : S * ndarray Qc -> result (S * ndarray Qc))
  (acc : S * store) : result (S * store) :=
  let '(s, st) := acc in
  '(s', a') <- body (s, deref st r) ;;
  Ok (s', store_set st r a').

(** [MaxPool.__call__]: the output, the layer and the store. *)
Definition MaxPool_call (self : MaxPool) (x : ndarray Qc) (st : store)
  : result (ndarray Qc * MaxPool * store) :=
  match shape x with
  | D :: H :: Wd :: _ =>
      let '(r, st) := alloc (zeros (shape x)) st in
      let output := zeros [D; (H + 1) / 2; (Wd + 1) / 2]%nat in
      '(output, st) <- for_loop (range2 (nth 1 (shape output) 0%nat)
                                        (nth 2 (shape output) 0%nat))
                         (fun ij => on_ref r (pool_forward_body x ij))
                         (output, st) ;;
      Ok (output, mk_MaxPool (Some r), st)
  | _ => Raise IndexError
  end.

(** The body of the double loop of [MaxPool.backward], on the cache
    array. *)
Definition pool_backward_body (d : ndarray Qc) (ij : nat * nat)
  (acc : unit * ndarray Qc) : result (unit * ndarray Qc) :=
  let '(i, j) := ij in
  dcol <- getitem_col d i j ;;
  cache <- iop_box Qcmult (snd acc) (Z.of_nat i * 2) (Z.of_nat i * 2 + 2)
                                    (Z.of_nat j * 2) (Z.of_nat j * 2 + 2)
                                    (reshape_m1_1_1 dcol) ;;
  Ok (tt, cache).

(** [MaxPool.backward]: the returned reference ([self.cache] itself) and
    the store. The layer is unchanged. *)
Definition MaxPool_backward (self : MaxPool) (d : ndarray Qc) (st : store)
  : result (ref * store) :=
  match pool_cache self with
  | None => Raise AttributeError
  | Some r =>
      match shape d with
      | _ :: H :: Wd :: _ =>
          '(_, st) <- for_loop (range2 H Wd)
                        (fun ij => on_ref r (pool_backward_body d ij)) (tt, st) ;;
          Ok (r, st)
      | _ => Raise IndexError
      end
  end.

(** ** Activation and cost *)

Record ReLU : Type := mk_ReLU {
  relu_cache : option (ndarray Qc)
}.

Definition ReLU_call (self : ReLU) (x : ndarray Qc) : ndarray Qc * ReLU :=
  let y := np_maximum0 x in (y, mk_ReLU (Some y)).

Definition ReLU_backward (self : ReLU) (y : option (ndarray Qc))
  : result (ndarray Qc) :=
  match relu_cache self, y with
  | Some c, Some y =>
      map2_nd Qcmult (map_nd (fun v => if Qcltb 0 v then 1 else 0) c) y
  | _, _ => Raise TypeError
  end.

Record l2_loss : Type := mk_l2_loss {
  l2_cache : option (ndarray Qc)
}.

Definition c784 : Qc := QcofZ 784.
Definition half : Qc := Q2Qc (1 # 2).

Definition l2_loss_call (self : l2_loss) (x y : ndarray Qc) : result (Qc * l2_loss) :=
  diff <- map2_nd Qcminus x y ;;
  let cache := map_nd (fun v => v / c784) diff in
  Ok (np_sum (map_nd (fun v => half * (v * v)) diff) / c784,
      mk_l2_loss (Some cache)).

Definition l2_loss_backward (self : l2_loss) : option (ndarray Qc) := l2_cache self.

(** ** The stacked model and the gradient check *)

Record model : Type := mk_model {
  conv1 : convLayer;
  conv2 : convLayer;
  maxpool : MaxPool;
  rl1 : ReLU;
  rl2 : ReLU;
  l2 : l2_loss;
  heap : store
}.

Definition model_forward (x : ndarray Qc) (m : model) : result (ndarray Qc * model) :=
  '(logits, c1) <- convLayer_call (conv1 m) x ;;
  let '(logits, r1) := ReLU_call (rl1 m) logits in
  '(logits, c2) <- convLayer_call (conv2 m) logits ;;
  '(logits, mp, hp) <- MaxPool_call (maxpool m) logits (heap m) ;;
  let '(logits, r2) := ReLU_call (rl2 m) logits in
  Ok (logits, mk_model c1 c2 mp r1 r2 (l2 m) hp).

Definition model_backward (m : model) : result model :=
  let delta := l2_loss_backward (l2 m) in
  delta <- ReLU_backward (rl2 m) delta ;;
  '(r, hp) <- MaxPool_backward (maxpool m) delta (heap m) ;;
  '(delta, c2) <- convLayer_backward (conv2 m) (deref hp r) ;;
  delta <- ReLU_backward (rl1 m) (Some delta) ;;
  '(delta, c1) <- convLayer_backward (conv1 m) delta ;;
  Ok (mk_model c1 c2 (maxpool m) (rl1 m) (rl2 m) (l2 m) hp).

(** [for l, layer in enumerate([conv1, conv2])] *)
Inductive which : Type := Conv1 | Conv2.

Definition layer_of (l : which) (m : model) : convLayer :=
  match l with Conv1 => conv1 m | Conv2 => conv2 m end.

(** [layer.W[c,d,i,j] = v] on the layer object of the model. *)
Definition set_weight (l : which) (idx : list nat) (v : Qc) (m : model) : result model :=
  let L := layer_of l m in
  w <- setitem (W L) idx v ;;
  let L' := mk_convLayer (kernelsize L) (stride L) (pad L) (in_channels L)
              (out_channels L) w (conv_cache L) (gradW L) in
  Ok match l with
     | Conv1 => mk_model L' (conv2 m) (maxpool m) (rl1 m) (rl2 m) (l2 m) (heap m)
     | Conv2 => mk_model (conv1 m) L' (maxpool m) (rl1 m) (rl2 m) (l2 m) (heap m)
     end.

Definition with_l2 (m : model) (c : l2_loss) : model :=
  mk_model (conv1 m) (conv2 m) (maxpool m) (rl1 m) (rl2 m) c (heap m).

(** [logits = model_forward(x); cost = l2(logits, y)] *)
Definition cost_of (x y : ndarray Qc) (m : model) : result (Qc * model) :=
  '(logits, m) <- model_forward x m ;;
  '(cost, c) <- l2_loss_call (l2 m) logits y ;;
  Ok (cost, with_l2 m c).

Definition epsilon : Qc := Q2Qc (1 # 10000000).

(** The first half of the loop body: the two perturbed evaluations, up to
    and including [layer.W[c,d,i,j] = orig]. *)
Definition check_perturb (x y : ndarray Qc) (l : which) (idx : list nat) (m : model)
  : result (Qc * model) :=
  orig <- getitem (W (layer_of l m)) idx ;;
  m <- set_weight l idx (orig + epsilon) m ;;
  '(cost1, m) <- cost_of x y m ;;
  m <- set_weight l idx (orig - epsilon) m ;;
  '(cost2, m) <- cost_of x y m ;;
  let gradient_approximation := (cost1 - cost2) / (QcofZ 2 * epsilon) in
  m <- set_weight l idx orig m ;;
  Ok (gradient_approximation, m).

(** The second half: forward, backward, and the [assert]. The comparison
    is made on exact values: where rounding decides the [assert] of the
    notebook, this definition may return where the notebook raises
    AssertionError, and the other way round. *)
Definition check_compare (x y : ndarray Qc) (l : which) (idx : list nat)
  (gradient_approximation : Qc) (m : model) : result model :=
  '(loss, m) <- cost_of x y m ;;
  m <- model_backward m ;;
  match gradW (layer_of l m) with
  | None => Raise TypeError
  | Some g =>
      actual <- getitem g idx ;;
      let difference := gradient_approximation - actual in
      if Qcleb (Qcabs difference) epsilon then Ok m else Raise AssertionError
  end.

Definition check_body (x y : ndarray Qc) (l : which) (idx : list nat) (m : model)
  : result model :=
  '(approx, m) <- check_perturb x y l idx m ;;
  check_compare x y l idx approx m.

(** The four nested [range] loops over the shape of [w_orig]. *)
Definition range4 (s : list nat) : list (list nat) :=
  flat_map (fun c =>
    flat_map (fun d =>
      flat_map (fun i =>
        map (fun j => [c; d; i; j]) (range (nth 3 s 0%nat)))
        (range (nth 2 s 0%nat)))
      (range (nth 1 s 0%nat)))
    (range (nth 0 s 0%nat)).

Definition check_layer (x y : ndarray Qc) (l : which) (m : model) : result model :=
  let w_orig := W (layer_of l m) in
  match shape w_orig with
  | [_; _; _; _] => for_loop (range4 (shape w_orig)) (check_body x y l) m
  | _ => Raise IndexError
  end.

Definition gradient_check (x y : ndarray Qc) (m : model) : result model :=
  for_loop [Conv1; Conv2] (check_layer x y) m.

(** * Specification vocabulary

    The quantities that the statements below speak about: well-formed
    layers, the sums of the convolution, the effect of one loop iteration
    on one array entry, window maxima, and a few concrete layers and
    inputs. *)

Unset Implicit Arguments.

(** ** Sums *)

(** The sum of [f] over a list, accumulated from the left like
    [sum_range]. *)
Definition sum_over {I : Type} (l : list I) (f : I -> Qc) : Qc :=
  fold_left (fun acc i => acc + f i) l 0.

(** ** The convolution layer *)

(** A layer as [__init__] builds it, with its parameters as naturals:
    [C] output channels, [D] input channels, kernel size [k], stride
    [s >= 1] and padding [p]. *)
Definition conv_wf (L : convLayer) (C D k s p : nat) : Prop :=
  shape (W L) = [C; D; k; k] /\
  kernelsize L = Z.of_nat k /\
  out_channels L = Z.of_nat C /\
  stride L = Z.of_nat s /\
  pad L = Z.of_nat p /\
  (1 <= s)%nat.

(** The entry of the zero-padded input, as the specification words it. *)
Definition padded_x (x : ndarray Qc) (H Wd p : nat) (d r c : nat) : Qc :=
  if ((p <=? r) && (r <? p + H) && (p <=? c) && (c <? p + Wd))%nat
  then data x [d; r - p; c - p]%nat
  else 0.

(** The cross-correlation sum at output channel [c], position [(i, j)]. *)
Definition conv_sum (w : ndarray Qc) (px : nat -> nat -> nat -> Qc)
  (D k s : nat) (c i j : nat) : Qc :=
  sum_range D (fun d =>
    sum_range k (fun di =>
      sum_range k (fun dj =>
        data w [c; d; di; dj] * px d (i * s + di)%nat (j * s + dj)%nat))).

(** The side of the output for an input of height [H], when the kernel
    fits the padded input. *)
Definition out_dim (H k s p : nat) : nat := ((H + 2 * p - k) / s + 1)%nat.

(** The effect of one iteration of the forward loop on the output entry
    [(c, i0, j0)]. *)
Definition conv_forward_effect (L : convLayer) (xp : ndarray Qc) (D k s : nat)
  (ij : nat * nat) (cij : nat * nat * nat) (v : Qc) : Qc :=
  let '(i, j) := ij in
  let '(c, i0, j0) := cij in
  if ((i0 =? i) && (j0 =? j))%nat
  then v + conv_sum (W L) (fun d r q => data xp [d; r; q]) D k s c i j
  else v.

(** Row (or column) [r] lies in the window of output row (or column) [h]:
    [h*s <= r < h*s + k]. *)
Definition in_window (h s k r : nat) : bool :=
  ((h * s <=? r) && (r <? h * s + k))%nat.

(** What output position [hw] adds to [dX[d, r, q]] when its window covers
    [(r, q)]: [sum_c W[c, d, r - h*s, q - w*s] * delta[c, h, w]]. *)
Definition dX_term (w delta : ndarray Qc) (C s : nat) (d r q : nat) (hw : nat * nat) : Qc :=
  sum_range C (fun c =>
    data w [c; d; r - fst hw * s; q - snd hw * s]%nat
    * data delta [c; fst hw; snd hw]).

(** What output position [hw] adds to [dW[c, d, di, dj]]. *)
Definition dW_term (xp delta : ndarray Qc) (s : nat) (c d di dj : nat) (hw : nat * nat) : Qc :=
  data xp [d; fst hw * s + di; snd hw * s + dj]%nat * data delta [c; fst hw; snd hw].

(** The effect of one iteration of the backward loop on an entry of [dX]
    (left) or of [dW] (right). *)
Definition conv_backward_effect (L : convLayer) (xp delta : ndarray Qc) (C k s : nat)
  (hw : nat * nat) (e : nat * nat * nat + nat * nat * nat * nat) (v : Qc) : Qc :=
  match e with
  | inl (d, r, q) =>
      if in_window (fst hw) s k r && in_window (snd hw) s k q
      then v + dX_term (W L) delta C s d r q hw
      else v
  | inr (c, d, di, dj) => v + dW_term xp delta s c d di dj hw
  end.

(** Reading an entry of [dX] or of [dW] off the pair of accumulators. *)
Definition grad_obs (acc : ndarray Qc * ndarray Qc)
  (e : nat * nat * nat + nat * nat * nat * nat) : Qc :=
  match e with
  | inl (d, r, q) => data (fst acc) [d; r; q]
  | inr (c, d, di, dj) => data (snd acc) [c; d; di; dj]
  end.

(** The entries that the loop lemma follows: channel indices in range. *)
Definition grad_dom (C D k : nat) (e : nat * nat * nat + nat * nat * nat * nat) : Prop :=
  match e with
  | inl (d, r, q) => (d < D)%nat
  | inr (c, d, di, dj) => (c < C /\ d < D /\ di < k /\ dj < k)%nat
  end.

(** [dX[d, r, q]] after the loop over an [n] by [m] grid of output
    positions. *)
Definition dX_sum (w delta : ndarray Qc) (C k s n m : nat) (d r q : nat) : Qc :=
  sum_range n (fun h =>
    sum_range m (fun w' =>
      if in_window h s k r && in_window w' s k q
      then dX_term w delta C s d r q (h, w')
      else 0)).

(** [dW[c, d, di, dj]] after that loop. *)
Definition dW_sum (xp delta : ndarray Qc) (s n m : nat) (c d di dj : nat) : Qc :=
  sum_range n (fun h =>
    sum_range m (fun w' => dW_term xp delta s c d di dj (h, w'))).

(** ** The max-pool layer *)

(** The maximum that [np.amax] takes over the window [(i, j)] of channel
    [d]. *)
Definition win_max (x : ndarray Qc) (d i j : nat) : Qc :=
  amax_list (flat_map (fun a => map (fun b => data x [d; i * 2 + a; j * 2 + b]%nat)
                                   (range 2)) (range 2)).

(** The effect of one iteration of the forward loop on an entry of the
    output (left) or of the cache (right). *)
Definition pool_forward_effect (x : ndarray Qc) (ij : nat * nat)
  (e : nat * nat * nat + nat * nat * nat) (v : Qc) : Qc :=
  match e with
  | inl (d, i0, j0) =>
      if ((i0 =? fst ij) && (j0 =? snd ij))%nat
      then win_max x d (fst ij) (snd ij) else v
  | inr (d, r, c) =>
      if in_window (fst ij) 2 2 r && in_window (snd ij) 2 2 c
      then (if Qceqb (data x [d; r; c]) (win_max x d (fst ij) (snd ij)) then 1 else 0)
      else v
  end.

(** Reading an entry of the output or of the cache off the loop state. *)
Definition pool_obs (acc : ndarray Qc * ndarray Qc)
  (e : nat * nat * nat + nat * nat * nat) : Qc :=
  match e with
  | inl (d, i0, j0) => data (fst acc) [d; i0; j0]
  | inr (d, r, c) => data (snd acc) [d; r; c]
  end.

(** The entries that the loop lemma follows: channel index in range. *)
Definition pool_dom (D : nat) (e : nat * nat * nat + nat * nat * nat) : Prop :=
  match e with
  | inl (d, _, _) => (d < D)%nat
  | inr (d, _, _) => (d < D)%nat
  end.

(** Every window that the loops over an [n] by [m] grid visit lies inside
    an [H] by [Wd] array. *)
Definition windows_full (n m H Wd : nat) : Prop :=
  forall i j, (i < n)%nat -> (j < m)%nat -> (i * 2 + 2 <= H /\ j * 2 + 2 <= Wd)%nat.

(** The effect of one iteration of the backward loop on the cache entry
    [e]. *)
Definition pool_backward_effect (delta : ndarray Qc) (ij : nat * nat)
  (e : nat * nat * nat) (v : Qc) : Qc :=
  if in_window (fst ij) 2 2 (snd (fst e)) && in_window (snd ij) 2 2 (snd e)
  then v * data delta [fst (fst e); fst ij; snd ij]
  else v.

(** [M] is the maximum of the 2x2 window [(i, j)] of channel [d]. *)
Definition is_window_max (x : ndarray Qc) (d i j : nat) (M : Qc) : Prop :=
  (forall a b, (a < 2)%nat -> (b < 2)%nat ->
     data x [d; i * 2 + a; j * 2 + b]%nat <= M) /\
  (exists a b, (a < 2)%nat /\ (b < 2)%nat /\
     data x [d; i * 2 + a; j * 2 + b]%nat = M).

(** ** The gradient check *)

(** Two arrays with the same shape and the same entries. *)
Definition nd_eq (a b : ndarray Qc) : Prop :=
  shape a = shape b /\ forall idx, data a idx = data b idx.

(** The other layer of the pair. *)
Definition other (l : which) : which :=
  match l with Conv1 => Conv2 | Conv2 => Conv1 end.

(** Both weight arrays of [m'] are those of [m]. *)
Definition weights_kept (m' m : model) : Prop :=
  nd_eq (W (conv1 m')) (W (conv1 m)) /\ nd_eq (W (conv2 m')) (W (conv2 m)).

(** ** Concrete layers and inputs *)

Definition is_ok {A : Type} (r : result A) : bool :=
  match r with Ok _ => true | Raise _ => false end.

(** The entries of an array at the given indices, as reduced fractions. *)
Definition entries (a : ndarray Qc) (idxs : list (list nat)) : list Q :=
  map (fun idx => this (data a idx)) idxs.

(** [convLayer(kernelsize, inputDim, outDim, stride, pad)] with every
    sampled weight equal to one. *)
Definition ex_conv (ks inputDim outDim st pd : nat) : convLayer :=
  mk_convLayer (Z.of_nat ks) (Z.of_nat st) (Z.of_nat pd)
    (Z.of_nat inputDim) (Z.of_nat outDim)
    (mk_nd [outDim; inputDim; ks; ks] (fun _ => 1)) None None.

(** The image of shape [(D, H, Wd)] holding 1, 2, 3, ... in row-major
    order. *)
Definition ex_image (D H Wd : nat) : ndarray Qc :=
  mk_nd [D; H; Wd]
    (fun idx =>
       match idx with
       | [d; r; c] => QcofZ (Z.of_nat (d * H * Wd + r * Wd + c + 1))
       | _ => 0
       end).

(** One channel, one window, with the maximum 7 at two places. *)
Definition ex_tied : ndarray Qc :=
  mk_nd [1; 2; 2]%nat
    (fun idx =>
       match idx with
       | [_; 0; 0]%nat => QcofZ 3
       | [_; 0; 1]%nat => QcofZ 7
       | [_; 1; 0]%nat => QcofZ 7
       | _ => QcofZ 1
       end).

(** The notebook's stack, with a 4 by 4 image and a 1 by 1 target. *)
Definition ex_model : model :=
  mk_model (ex_conv 3 1 3 1 1) (ex_conv 3 3 1 2 1) MaxPool_init
    (mk_ReLU None) (mk_ReLU None) (mk_l2_loss None) [].

(** ** The notebook's stack *)

(** The layers of the notebook's stack: conv1 = convLayer(3, 1, 3, 1, 1)
    and conv2 = convLayer(3, 3, 1, 2, 1), with any weights. *)
Definition stack_wf (m : model) : Prop :=
  conv_wf (conv1 m) 3 1 3 1 1 /\ conv_wf (conv2 m) 1 3 3 2 1.

(** A two-layer stack small enough to run the whole gradient check on:
    both convolutions are convLayer(1, 1, 1, 1, 1). *)
Definition ex_tiny_model : model :=
  mk_model (ex_conv 1 1 1 1 1) (ex_conv 1 1 1 1 1) MaxPool_init
    (mk_ReLU None) (mk_ReLU None) (mk_l2_loss None) [].

(** * Verification *)

(** ** Scalars, sums and loops *)

Lemma Qceqb_eq (a b : Qc) : Qceqb a b = true <-> a = b.
Proof.
  unfold Qceqb. rewrite Qeq_bool_iff. split.
  - apply Qc_is_canon.
  - intros ->. reflexivity.
Qed.

Lemma Qceqb_refl (a : Qc) : Qceqb a a = true.
Proof. apply Qceqb_eq. reflexivity. Qed.

Lemma Qcleb_le (a b : Qc) : Qcleb a b = true <-> a <= b.
Proof. unfold Qcleb, Qcle. apply Qle_bool_iff. Qed.

Lemma Qcmax_cases (a b : Qc) : Qcmax a b = a \/ Qcmax a b = b.
Proof. unfold Qcmax. destruct (Qcleb a b); auto. Qed.

Lemma Qcmax_ub_l (a b : Qc) : a <= Qcmax a b.
Proof.
  unfold Qcmax. destruct (Qcleb a b) eqn:E.
  - apply Qcleb_le. exact E.
  - apply Qcle_refl.
Qed.

Lemma Qcmax_ub_r (a b : Qc) : b <= Qcmax a b.
Proof.
  unfold Qcmax. destruct (Qcleb a b) eqn:E.
  - apply Qcle_refl.
  - destruct (Qclt_le_dec b a) as [Hlt | Hle].
    + apply Qclt_le_weak. exact Hlt.
    + apply Qcleb_le in Hle. congruence.
Qed.

Lemma sum_range_over (n : nat) (f : nat -> Qc) : sum_range n f = sum_over (range n) f.
Proof. reflexivity. Qed.

Lemma fold_add_sum {I : Type} (l : list I) (f : I -> Qc) (v : Qc) :
  fold_left (fun acc i => acc + f i) l v = v + sum_over l f.
Proof.
  unfold sum_over. revert v. induction l as [| a l IH]; intro v; simpl.
  - ring.
  - rewrite IH. rewrite (IH (0 + f a)). ring.
Qed.

Lemma sum_over_nil {I : Type} (f : I -> Qc) : sum_over [] f = 0.
Proof. reflexivity. Qed.

Lemma sum_over_cons {I : Type} (a : I) (l : list I) (f : I -> Qc) :
  sum_over (a :: l) f = f a + sum_over l f.
Proof. unfold sum_over at 1. simpl. rewrite fold_add_sum. ring. Qed.

Lemma sum_over_app {I : Type} (l1 l2 : list I) (f : I -> Qc) :
  sum_over (l1 ++ l2) f = sum_over l1 f + sum_over l2 f.
Proof.
  induction l1 as [| a l1 IH]; simpl.
  - rewrite sum_over_nil. ring.
  - rewrite !sum_over_cons, IH. ring.
Qed.

Lemma sum_over_ext {I : Type} (l : list I) (f g : I -> Qc) :
  (forall i, In i l -> f i = g i) -> sum_over l f = sum_over l g.
Proof.
  induction l as [| a l IH]; intro H.
  - reflexivity.
  - rewrite !sum_over_cons. rewrite (H a) by (left; reflexivity).
    rewrite IH; [reflexivity |]. intros i Hi. apply H. right. exact Hi.
Qed.

Lemma sum_over_map {I J : Type} (h : I -> J) (l : list I) (f : J -> Qc) :
  sum_over (map h l) f = sum_over l (fun i => f (h i)).
Proof.
  induction l as [| a l IH]; [reflexivity |].
  simpl. rewrite !sum_over_cons, IH. reflexivity.
Qed.

Lemma sum_over_flat_map {I J : Type} (h : I -> list J) (l : list I) (f : J -> Qc) :
  sum_over (flat_map h l) f = sum_over l (fun i => sum_over (h i) f).
Proof.
  induction l as [| a l IH]; [reflexivity |].
  simpl. rewrite sum_over_app, sum_over_cons, IH. reflexivity.
Qed.

Lemma sum_over_zero {I : Type} (l : list I) (f : I -> Qc) :
  (forall i, In i l -> f i = 0) -> sum_over l f = 0.
Proof.
  induction l as [| a l IH]; intro H; [reflexivity |].
  rewrite sum_over_cons, (H a) by (left; reflexivity).
  rewrite IH; [ring |]. intros i Hi. apply H. right. exact Hi.
Qed.

Lemma sum_range_ext (n : nat) (f g : nat -> Qc) :
  (forall i, (i < n)%nat -> f i = g i) -> sum_range n f = sum_range n g.
Proof.
  intro H. rewrite !sum_range_over. apply sum_over_ext.
  intros i Hi. apply H. unfold range in Hi. apply in_seq in Hi. lia.
Qed.

Lemma sum_over_range2 (n m : nat) (f : nat * nat -> Qc) :
  sum_over (range2 n m) f = sum_range n (fun i => sum_range m (fun j => f (i, j))).
Proof.
  unfold range2. rewrite sum_over_flat_map, sum_range_over.
  apply sum_over_ext. intros i _. rewrite sum_over_map. reflexivity.
Qed.

Lemma in_range (n i : nat) : In i (range n) <-> (i < n)%nat.
Proof. unfold range. rewrite in_seq. lia. Qed.

Lemma in_range2 (n m i j : nat) : In (i, j) (range2 n m) <-> (i < n /\ j < m)%nat.
Proof.
  unfold range2. rewrite in_flat_map. split.
  - intros [i' [Hi Hj]]. apply in_map_iff in Hj. destruct Hj as [j' [E Hj]].
    inversion E; subst. rewrite in_range in Hi, Hj. auto.
  - intros [Hi Hj]. exists i. rewrite in_range. split; [exact Hi |].
    apply in_map. apply in_range. exact Hj.
Qed.

(** A sum in which a single index contributes. *)
Lemma sum_range_single (n i0 : nat) (f : nat -> Qc) :
  (i0 < n)%nat -> (forall i, (i < n)%nat -> i <> i0 -> f i = 0) ->
  sum_range n f = f i0.
Proof.
  intros Hlt Hz. rewrite sum_range_over. unfold range.
  replace n with (i0 + (1 + (n - i0 - 1)))%nat at 1 by lia.
  rewrite !seq_app, !sum_over_app. simpl seq at 2.
  rewrite sum_over_cons, sum_over_nil.
  rewrite (sum_over_zero (seq 0 i0)), (sum_over_zero (seq _ (n - i0 - 1))).
  - ring.
  - intros i Hi. apply in_seq in Hi. apply Hz; lia.
  - intros i Hi. apply in_seq in Hi. apply Hz; lia.
Qed.

(** The loop lemma: when every iteration succeeds on states satisfying
    [ok], keeps [ok], and changes each observation [k] in [dom] of the
    state by [F p k], the loop succeeds and each such observation is the
    fold of the iterations' effects on it. *)
Lemma for_loop_obs {I S K : Type} (ok : S -> Prop) (dom : K -> Prop)
  (obs : S -> K -> Qc) (F : I -> K -> Qc -> Qc) (body : I -> S -> result S)
  (l : list I) (s0 : S) :
  ok s0 ->
  (forall p s, In p l -> ok s ->
     exists s', body p s = Ok s' /\ ok s' /\
                forall k, dom k -> obs s' k = F p k (obs s k)) ->
  exists sf, for_loop l body s0 = Ok sf /\ ok sf /\
             forall k, dom k ->
               obs sf k = fold_left (fun v p => F p k v) l (obs s0 k).
Proof.
  revert s0. induction l as [| p l IH]; intros s0 Hok Hbody.
  - exists s0. simpl. auto.
  - destruct (Hbody p s0 (or_introl eq_refl) Hok) as [s1 [E1 [Hok1 Hobs1]]].
    destruct (IH s1 Hok1) as [sf [Ef [Hokf Hobsf]]].
    + intros q s Hq Hs. apply Hbody; [right; exact Hq | exact Hs].
    + exists sf. simpl. rewrite E1. split; [exact Ef | split; [exact Hokf |]].
      intros k Hk. rewrite (Hobsf k Hk), (Hobs1 k Hk). reflexivity.
Qed.

Lemma fold_left_ext_in {A B : Type} (f g : A -> B -> A) (l : list B) (a : A) :
  (forall x b, In b l -> f x b = g x b) -> fold_left f l a = fold_left g l a.
Proof.
  revert a. induction l as [| b l IH]; intros a H; [reflexivity |].
  simpl. rewrite H by (left; reflexivity). apply IH.
  intros x b' Hb'. apply H. right. exact Hb'.
Qed.

(** A loop that adds [a p] at the iterations selected by [hit]. *)
Lemma fold_hit_sum {I : Type} (hit : I -> bool) (a : I -> Qc) (l : list I) (v0 : Qc) :
  fold_left (fun v p => if hit p then v + a p else v) l v0
  = v0 + sum_over l (fun p => if hit p then a p else 0).
Proof.
  rewrite <- fold_add_sum. apply fold_left_ext_in.
  intros v p _. destruct (hit p); ring.
Qed.

Lemma bind_ok {A B : Type} (m : result A) (f : A -> result B) (a : A) :
  m = Ok a -> bind m f = f a.
Proof. intros ->. reflexivity. Qed.
(** ** Shapes, slices and broadcasting *)

Lemma bdim_refl (n : nat) : bdim n n = Some n.
Proof. unfold bdim. rewrite Nat.eqb_refl. reflexivity. Qed.

Lemma bdim_1_l (n : nat) : bdim 1 n = Some n.
Proof. unfold bdim. destruct n as [| [| n]]; reflexivity. Qed.

Lemma bdim_1_r (n : nat) : bdim n 1 = Some n.
Proof. unfold bdim. destruct n as [| [| n]]; reflexivity. Qed.

Lemma pin1 (n i : nat) : (i < n)%nat -> (if (n =? 1)%nat then 0%nat else i) = i.
Proof. intro H. destruct (Nat.eqb_spec n 1); lia. Qed.

Lemma list_nat_eqb_eq (a b : list nat) : list_nat_eqb a b = true <-> a = b.
Proof. unfold list_nat_eqb. destruct (list_eq_dec Nat.eq_dec a b); split; congruence. Qed.

Lemma broadcasts_to_refl (s : list nat) :
  broadcast_shapes s s = Some s -> broadcasts_to s s = true.
Proof.
  intro H. unfold broadcasts_to. rewrite H.
  destruct (list_eq_dec Nat.eq_dec s s); congruence.
Qed.

(** A slice with bounds inside the axis is taken whole. *)
Lemma slice_inside (n : nat) (lo len : nat) :
  (lo + len <= n)%nat ->
  slice n (Z.of_nat lo) (Z.of_nat lo + Z.of_nat len) = (lo, len).
Proof.
  intro H. unfold slice, slice_bound.
  destruct (Z.ltb_spec (Z.of_nat lo) 0); [lia |].
  destruct (Z.ltb_spec (Z.of_nat lo + Z.of_nat len) 0); [lia |].
  f_equal; lia.
Qed.

(** In general a slice with bounds [0 <= lo <= hi] is clipped to the axis. *)
Lemma slice_clip (n : nat) (lo len : nat) :
  slice n (Z.of_nat lo) (Z.of_nat lo + Z.of_nat len)
  = (Nat.min n lo, Nat.min n (lo + len) - Nat.min n lo)%nat.
Proof.
  unfold slice, slice_bound.
  destruct (Z.ltb_spec (Z.of_nat lo) 0); [lia |].
  destruct (Z.ltb_spec (Z.of_nat lo + Z.of_nat len) 0); [lia |].
  f_equal; lia.
Qed.

(** ** The convolution layer: forward *)

Lemma output_size_nat (L : convLayer) (C D k s p H : nat) :
  conv_wf L C D k s p -> (k <= H + 2 * p)%nat ->
  output_size L H = Z.of_nat (out_dim H k s p).
Proof.
  intros (_ & Hk & _ & Hs & Hp & Hs1) Hfit.
  unfold output_size, out_dim. rewrite Hk, Hs, Hp.
  rewrite Nat2Z.inj_add, Nat2Z.inj_div. f_equal. f_equal. lia.
Qed.

Lemma out_dim_window (H k s p i : nat) :
  (1 <= s)%nat -> (k <= H + 2 * p)%nat -> (i < out_dim H k s p)%nat ->
  (i * s + k <= H + 2 * p)%nat.
Proof.
  intros Hs Hfit Hi. unfold out_dim in Hi.
  assert (i <= (H + 2 * p - k) / s)%nat as Hle by lia.
  assert (s * ((H + 2 * p - k) / s) <= H + 2 * p - k)%nat
    by (apply Nat.Div0.mul_div_le).
  nia.
Qed.

Lemma np_pad_ok (x : ndarray Qc) (D H Wd p : nat) :
  shape x = [D; H; Wd] ->
  exists xp, np_pad x (Z.of_nat p) = Ok xp /\
             shape xp = [D; H + 2 * p; Wd + 2 * p]%nat /\
             forall d r c, data xp [d; r; c] = padded_x x H Wd p d r c.
Proof.
  intro Hx. unfold np_pad. rewrite Hx.
  destruct (Z.ltb_spec (Z.of_nat p) 0); [lia |].
  rewrite Nat2Z.id. eexists. split; [reflexivity |]. split; reflexivity.
Qed.

Lemma conv_forward_body_ok (L : convLayer) (C D k s p : nat)
  (xp output : ndarray Qc) (Hp Wp n m i j : nat) :
  conv_wf L C D k s p ->
  shape xp = [D; Hp; Wp] ->
  shape output = [C; n; m] ->
  (i < n)%nat -> (j < m)%nat ->
  (i * s + k <= Hp)%nat -> (j * s + k <= Wp)%nat ->
  exists o', conv_forward_body L xp (i, j) output = Ok o' /\
             shape o' = [C; n; m] /\
             forall c i0 j0, (c < C)%nat ->
               data o' [c; i0; j0]
               = conv_forward_effect L xp D k s (i, j) (c, i0, j0)
                   (data output [c; i0; j0]).
Proof.
  intros (HW & Hk & HC & Hs & Hpad & Hs1) Hxp Hout Hi Hj Hrow Hcol.
  unfold conv_forward_body, getitem_box. rewrite Hxp, Hs, Hk.
  rewrite <- !Nat2Z.inj_mul, !slice_inside by assumption.
  cbn [bind]. unfold map2_nd. rewrite HW. cbn [shape].
  unfold broadcast_shapes. cbn [rev app bshape_rev]. rewrite !bdim_refl.
  cbn [option_map rev app bind]. unfold np_sum_123. cbn [shape bind].
  unfold iop_col. rewrite Hout.
  apply Nat.ltb_lt in Hi, Hj. rewrite Hi, Hj. cbn [andb shape].
  unfold broadcasts_to, broadcast_shapes. cbn [rev app bshape_rev].
  rewrite bdim_refl. cbn [option_map rev app].
  destruct (list_eq_dec Nat.eq_dec [C] [C]) as [_ | ne]; [| congruence].
  eexists. split; [reflexivity |]. split; [reflexivity |].
  intros c i0 j0 Hc. cbn [data]. unfold conv_forward_effect.
  destruct ((i0 =? i) && (j0 =? j))%nat; [| reflexivity].
  f_equal. unfold bindex. cbn [List.length Nat.sub skipn pin].
  rewrite (pin1 _ _ Hc). unfold conv_sum. cbn [sum_all].
  apply sum_range_ext; intros d Hd.
  apply sum_range_ext; intros di Hdi.
  apply sum_range_ext; intros dj Hdj.
  cbn [List.length Nat.sub skipn pin].
  rewrite (pin1 _ _ Hc), (pin1 _ _ Hd), (pin1 _ _ Hdi), (pin1 _ _ Hdj). reflexivity.
Qed.

Lemma sum_range2_single (n m i0 j0 : nat) (a : nat * nat -> Qc) :
  (i0 < n)%nat -> (j0 < m)%nat ->
  sum_over (range2 n m)
    (fun p => if ((i0 =? fst p) && (j0 =? snd p))%nat then a p else 0)
  = a (i0, j0).
Proof.
  intros Hi Hj. rewrite sum_over_range2. cbn [fst snd].
  rewrite (sum_range_single _ i0); [| exact Hi |].
  - rewrite (sum_range_single _ j0); [| exact Hj |].
    + rewrite !Nat.eqb_refl. reflexivity.
    + intros j _ Hne. rewrite Nat.eqb_refl.
      destruct (Nat.eqb_spec j0 j); [congruence | reflexivity].
  - intros i _ Hne. apply sum_over_zero. intros j _.
    destruct (Nat.eqb_spec i0 i); [congruence | reflexivity].
Qed.

(** What [__call__] does on an input whose padded height is covered by its
    padded width: the output, the new cache and the untouched fields. *)
Lemma convLayer_call_spec (L : convLayer) (C D k s p : nat)
  (x : ndarray Qc) (H Wd : nat) :
  conv_wf L C D k s p ->
  shape x = [D; H; Wd] ->
  (H <= Wd)%nat ->
  (k <= H + 2 * p)%nat ->
  exists out xp,
    convLayer_call L x
    = Ok (out, mk_convLayer (kernelsize L) (stride L) (pad L) (in_channels L)
                 (out_channels L) (W L) (Some xp) (gradW L)) /\
    shape out = [C; out_dim H k s p; out_dim H k s p] /\
    shape xp = [D; H + 2 * p; Wd + 2 * p]%nat /\
    (forall d r c, data xp [d; r; c] = padded_x x H Wd p d r c) /\
    (forall c i j, (c < C)%nat -> (i < out_dim H k s p)%nat ->
                   (j < out_dim H k s p)%nat ->
       data out [c; i; j] = conv_sum (W L) (padded_x x H Wd p) D k s c i j).
Proof.
  intros Hwf Hx HW Hfit.
  pose proof Hwf as (HWs & Hk & HC & Hs & Hpad & Hs1).
  destruct (np_pad_ok x D H Wd p Hx) as [xp (Epad & Hxp & Hdata)].
  set (n := out_dim H k s p).
  unfold convLayer_call. rewrite Hx, Hpad, Epad. cbn [bind].
  rewrite Hs. destruct (Z.eqb_spec (Z.of_nat s) 0); [lia |].
  rewrite <- Hs, (output_size_nat L C D k s p H Hwf Hfit), HC. fold n.
  unfold np_zeros. cbn [forallb map bind].
  destruct (Z.leb_spec 0 (Z.of_nat C)); [| lia].
  destruct (Z.leb_spec 0 (Z.of_nat n)); [| lia].
  cbn [andb bind shape nth]. rewrite !Nat2Z.id.
  destruct (for_loop_obs
              (fun o : ndarray Qc => shape o = [C; n; n])
              (fun cij : nat * nat * nat => (fst (fst cij) < C)%nat)
              (fun o cij => data o [fst (fst cij); snd (fst cij); snd cij])
              (conv_forward_effect L xp D k s)
              (conv_forward_body L xp) (range2 n n)
              (mk_nd [C; n; n] (fun _ => 0)))
    as [out (Eloop & Hshape & Hobs)].
  - reflexivity.
  - intros [i j] o Hin Ho. apply in_range2 in Hin. destruct Hin as [Hi Hj].
    destruct (conv_forward_body_ok L C D k s p xp o (H + 2 * p)%nat (Wd + 2 * p)%nat n n i j)
      as [o' (E & Hs' & Hd')]; try assumption.
    + apply out_dim_window; assumption.
    + pose proof (out_dim_window H k s p j Hs1 Hfit Hj). lia.
    + exists o'. split; [exact E |]. split; [exact Hs' |].
      intros [[c i0] j0] Hc. apply Hd'. exact Hc.
  - exists out, xp. rewrite Eloop. cbn [bind].
    split; [reflexivity |]. split; [exact Hshape |].
    split; [exact Hxp |]. split; [exact Hdata |].
    intros c i j Hc Hi Hj.
    pose proof (Hobs (c, i, j) Hc) as Hv. cbn [fst snd data] in Hv. rewrite Hv.
    rewrite (fold_left_ext_in _
               (fun v q => if ((i =? fst q) && (j =? snd q))%nat
                           then v + conv_sum (W L) (fun d r q0 => data xp [d; r; q0])
                                      D k s c (fst q) (snd q)
                           else v)).
    + rewrite fold_hit_sum, (sum_range2_single _ _ _ _ _ Hi Hj). cbn [fst snd].
      rewrite Qcplus_0_l. unfold conv_sum.
      apply sum_range_ext; intros d _.
      apply sum_range_ext; intros di _.
      apply sum_range_ext; intros dj _. rewrite Hdata. reflexivity.
    + intros v [i' j'] _. reflexivity.
Qed.

(** ** The convolution layer: backward *)

Lemma getitem_col_3 (x : ndarray Qc) (D n m i j : nat) :
  shape x = [D; n; m] -> (i < n)%nat -> (j < m)%nat ->
  getitem_col x i j = Ok (mk_nd [D] (fun idx => match idx with
                                               | d :: t => data x (d :: i :: j :: t)
                                               | [] => data x idx
                                               end)).
Proof.
  intros Hx Hi Hj. unfold getitem_col. rewrite Hx.
  apply Nat.ltb_lt in Hi, Hj. rewrite Hi, Hj. reflexivity.
Qed.

Lemma reshape_channels (C : nat) (v : ndarray Qc) :
  shape v = [C] -> (1 <= C)%nat ->
  exists v4, reshape_n_m1_1_1 C v = Ok v4 /\
             shape v4 = [C; 1; 1; 1]%nat /\
             forall c, data v4 [c; 0; 0; 0]%nat = data v [c].
Proof.
  intros Hv HC. unfold reshape_n_m1_1_1. rewrite Hv. unfold size. cbn [fold_right].
  rewrite Nat.mul_1_r, Nat.Div0.mod_same, Nat.div_same by lia.
  destruct (Nat.eqb_spec C 0); [lia |]. cbn [orb negb Nat.eqb].
  eexists. split; [reflexivity |]. split; [reflexivity |].
  intro c. cbn [data unravel fold_right].
  rewrite Nat.mul_1_r, Nat.add_0_r, Nat.div_1_r. reflexivity.
Qed.

Lemma conv_backward_body_ok (L : convLayer) (C D k s p : nat)
  (xp delta dX dW : ndarray Qc) (Hp Wp n m h w : nat) :
  conv_wf L C D k s p ->
  (1 <= C)%nat ->
  shape xp = [D; Hp; Wp] ->
  shape delta = [C; n; m] ->
  shape dX = [D; Hp; Wp] ->
  shape dW = [C; D; k; k] ->
  (h < n)%nat -> (w < m)%nat ->
  (h * s + k <= Hp)%nat -> (w * s + k <= Wp)%nat ->
  exists acc', conv_backward_body L xp delta C (h, w) (dX, dW) = Ok acc' /\
               shape (fst acc') = [D; Hp; Wp] /\
               shape (snd acc') = [C; D; k; k] /\
               forall e, grad_dom C D k e ->
                 grad_obs acc' e
                 = conv_backward_effect L xp delta C k s (h, w) e (grad_obs (dX, dW) e).
Proof.
  intros (HW & Hk & HC & Hs & Hpad & Hs1) HC1 Hxp Hdelta HdX HdW Hh Hw Hrow Hcol.
  unfold conv_backward_body.
  rewrite (getitem_col_3 delta C n m h w Hdelta Hh Hw). cbn [bind].
  match goal with |- context [reshape_n_m1_1_1 C ?v] =>
    destruct (reshape_channels C v eq_refl HC1) as [d4 (E4 & Hd4 & Hd4v)]
  end.
  rewrite E4. cbn [bind].
  unfold map2_nd at 1. rewrite HW, Hd4.
  unfold broadcast_shapes at 1. cbn [rev app bshape_rev].
  rewrite !bdim_1_r, bdim_refl. cbn [option_map rev app bind].
  unfold np_sum_0. cbn [shape bind].
  unfold iop_box. rewrite HdX, Hs, Hk.
  rewrite <- !Nat2Z.inj_mul, !slice_inside by assumption.
  cbn [shape]. unfold broadcasts_to at 1, broadcast_shapes at 1.
  cbn [rev app bshape_rev]. rewrite !bdim_refl. cbn [option_map rev app].
  destruct (list_eq_dec Nat.eq_dec [D; k; k] [D; k; k]) as [_ | ne]; [| congruence].
  cbn [bind]. unfold getitem_box. rewrite Hxp, !slice_inside by assumption.
  cbn [bind]. unfold map2_nd. cbn [shape]. rewrite Hd4.
  unfold broadcast_shapes at 1. cbn [rev app bshape_rev].
  rewrite !bdim_1_r. cbn [option_map rev app bind].
  unfold iop_all. rewrite HdW. cbn [shape].
  unfold broadcasts_to, broadcast_shapes. cbn [rev app bshape_rev].
  rewrite !bdim_refl. cbn [option_map rev app].
  destruct (list_eq_dec Nat.eq_dec [C; D; k; k] [C; D; k; k]) as [_ | ne];
    [| congruence].
  cbn [bind]. eexists. split; [reflexivity |]. cbn [fst snd shape].
  split; [reflexivity |]. split; [reflexivity |].
  intros [[[d r] q] | [[[c d] di] dj]]; cbn [grad_dom grad_obs fst snd data].
  - intro Hd. unfold conv_backward_effect, in_window. cbn [fst snd].
    replace ((h * s <=? r) && (r <? h * s + k) && (w * s <=? q) && (q <? w * s + k))%nat
      with ((h * s <=? r) && (r <? h * s + k) && ((w * s <=? q) && (q <? w * s + k)))%nat
      by (rewrite !andb_assoc; reflexivity).
    destruct ((h * s <=? r) && (r <? h * s + k))%nat eqn:Er; [| reflexivity].
    destruct ((w * s <=? q) && (q <? w * s + k))%nat eqn:Eq; [| reflexivity].
    cbn [andb]. f_equal.
    apply andb_true_iff in Er, Eq. destruct Er as [Er1 Er2], Eq as [Eq1 Eq2].
    apply Nat.leb_le in Er1, Eq1. apply Nat.ltb_lt in Er2, Eq2.
    unfold dX_term, bindex. cbn [fst snd List.length Nat.sub skipn pin].
    assert (r - h * s < k)%nat as Hr by lia.
    assert (q - w * s < k)%nat as Hq by lia.
    rewrite (pin1 _ _ Hd), (pin1 _ _ Hr), (pin1 _ _ Hq).
    apply sum_range_ext. intros c Hc.
    cbn [List.length Nat.sub skipn pin Nat.eqb].
    rewrite (pin1 _ _ Hd), (pin1 _ _ Hr), (pin1 _ _ Hq), (pin1 _ _ Hc).
    rewrite Hd4v. reflexivity.
  - intros (Hc & Hd & Hdi & Hdj). unfold conv_backward_effect, dW_term, bindex.
    cbn [fst snd List.length Nat.sub skipn pin Nat.eqb].
    rewrite !(pin1 _ _ Hc), !(pin1 _ _ Hd), !(pin1 _ _ Hdi), !(pin1 _ _ Hdj).
    rewrite Hd4v. reflexivity.
Qed.

Lemma conv_backward_loop_spec (L : convLayer) (C D k s p : nat)
  (xp delta : ndarray Qc) (Hp Wp n m : nat) :
  conv_wf L C D k s p ->
  (1 <= C)%nat ->
  conv_cache L = Some xp ->
  shape xp = [D; Hp; Wp] ->
  shape delta = [C; n; m] ->
  (forall h, (h < n)%nat -> (h * s + k <= Hp)%nat) ->
  (forall w, (w < m)%nat -> (w * s + k <= Wp)%nat) ->
  exists dX dW,
    conv_backward_loop L delta = Ok (dX, dW) /\
    shape dX = [D; Hp; Wp] /\
    shape dW = [C; D; k; k] /\
    (forall d r q, (d < D)%nat ->
       data dX [d; r; q] = dX_sum (W L) delta C k s n m d r q) /\
    (forall c d di dj, (c < C)%nat -> (d < D)%nat -> (di < k)%nat -> (dj < k)%nat ->
       data dW [c; d; di; dj] = dW_sum xp delta s n m c d di dj).
Proof.
  intros Hwf HC1 Hcache Hxp Hdelta Hrows Hcols.
  pose proof Hwf as (HWs & _).
  unfold conv_backward_loop. rewrite Hdelta, Hcache.
  destruct (for_loop_obs
              (fun acc : ndarray Qc * ndarray Qc =>
                 shape (fst acc) = [D; Hp; Wp] /\ shape (snd acc) = [C; D; k; k])
              (grad_dom C D k) grad_obs
              (conv_backward_effect L xp delta C k s)
              (conv_backward_body L xp delta C) (range2 n m)
              (zeros (shape xp), zeros (shape (W L))))
    as [[dX dW] (Eloop & [HsX HsW] & Hobs)].
  - cbn [fst snd zeros shape]. auto.
  - intros [h w] [dX dW] Hin [HsX HsW]. cbn [fst snd] in HsX, HsW.
    apply in_range2 in Hin. destruct Hin as [Hh Hw].
    destruct (conv_backward_body_ok L C D k s p xp delta dX dW Hp Wp n m h w)
      as [acc' (E & H1 & H2 & H3)]; auto.
    exists acc'. auto.
  - cbn [fst snd] in HsX, HsW. exists dX, dW. split; [exact Eloop |].
    split; [exact HsX |]. split; [exact HsW |]. split.
    + intros d r q Hd. pose proof (Hobs (inl (d, r, q)) Hd) as Hv.
      cbn [grad_obs fst snd zeros data] in Hv. rewrite Hv.
      unfold conv_backward_effect.
      rewrite (fold_hit_sum
                 (fun hw => in_window (fst hw) s k r && in_window (snd hw) s k q)
                 (dX_term (W L) delta C s d r q)).
      rewrite Qcplus_0_l, sum_over_range2. reflexivity.
    + intros c d di dj Hc Hd Hdi Hdj.
      pose proof (Hobs (inr (c, d, di, dj)) (conj Hc (conj Hd (conj Hdi Hdj)))) as Hv.
      cbn [grad_obs fst snd zeros data] in Hv. rewrite Hv.
      unfold conv_backward_effect. rewrite fold_add_sum.
      rewrite Qcplus_0_l, sum_over_range2. reflexivity.
Qed.

(** The crop [dX[:, p:-p, p:-p]]: with [p >= 1] it strips the border; with
    [p = 0] the stop bound [-0] is [0] and the slice is empty. *)
Lemma slice_crop (n p : nat) :
  slice n (Z.of_nat p) (- Z.of_nat p)
  = if (p =? 0)%nat then (0, 0)%nat else (Nat.min n p, (n - p) - Nat.min n p)%nat.
Proof.
  unfold slice, slice_bound.
  destruct (Nat.eqb_spec p 0) as [-> | Hp].
  - cbn. rewrite Z.min_r by lia. reflexivity.
  - destruct (Z.ltb_spec (Z.of_nat p) 0); [lia |].
    destruct (Z.ltb_spec (- Z.of_nat p) 0); [| lia].
    f_equal; lia.
Qed.

Lemma crop_spec (dX : ndarray Qc) (D Hp Wp p : nat) :
  shape dX = [D; Hp; Wp] ->
  exists ret,
    getitem_box dX (Z.of_nat p) (- Z.of_nat p) (Z.of_nat p) (- Z.of_nat p) = Ok ret /\
    shape ret = (if (p =? 0)%nat then [D; 0; 0]
                 else [D; (Hp - p) - Nat.min Hp p; (Wp - p) - Nat.min Wp p])%nat /\
    forall d r c, data ret [d; r; c]
                  = data dX [d; (if (p =? 0) then 0 else Nat.min Hp p) + r;
                                (if (p =? 0) then 0 else Nat.min Wp p) + c]%nat.
Proof.
  intro HdX. unfold getitem_box. rewrite HdX, !slice_crop.
  destruct (p =? 0)%nat; eexists; (split; [reflexivity |]); split; reflexivity.
Qed.

(** What [backward] does after [__call__] on an input whose padded height
    is covered by its padded width. *)
Lemma convLayer_backward_spec (L : convLayer) (C D k s p : nat)
  (x out delta : ndarray Qc) (H Wd : nat) (L1 : convLayer) :
  conv_wf L C D k s p ->
  (1 <= C)%nat ->
  shape x = [D; H; Wd] ->
  (H <= Wd)%nat ->
  (k <= H + 2 * p)%nat ->
  convLayer_call L x = Ok (out, L1) ->
  shape delta = shape out ->
  exists dX dW ret,
    conv_backward_loop L1 delta = Ok (dX, dW) /\
    convLayer_backward L1 delta
    = Ok (ret, mk_convLayer (kernelsize L) (stride L) (pad L) (in_channels L)
                 (out_channels L) (W L) (conv_cache L1) (Some dW)) /\
    getitem_box dX (Z.of_nat p) (- Z.of_nat p) (Z.of_nat p) (- Z.of_nat p) = Ok ret /\
    shape dX = [D; H + 2 * p; Wd + 2 * p]%nat /\
    shape dW = [C; D; k; k] /\
    shape ret = (if (p =? 0)%nat then [D; 0; 0] else [D; H; Wd])%nat /\
    (forall d r q, (d < D)%nat ->
       data dX [d; r; q]
       = dX_sum (W L) delta C k s (out_dim H k s p) (out_dim H k s p) d r q) /\
    (forall c d di dj, (c < C)%nat -> (d < D)%nat -> (di < k)%nat -> (dj < k)%nat ->
       data dW [c; d; di; dj]
       = sum_range (out_dim H k s p) (fun i =>
           sum_range (out_dim H k s p) (fun j =>
             padded_x x H Wd p d (i * s + di) (j * s + dj) * data delta [c; i; j]))).
Proof.
  intros Hwf HC1 Hx HW Hfit Ecall Hdelta.
  destruct (convLayer_call_spec L C D k s p x H Wd Hwf Hx HW Hfit)
    as [out' [xp (Ecall' & Hout & Hxp & Hpx & _)]].
  rewrite Ecall in Ecall'. inversion Ecall'; subst out' L1. clear Ecall'.
  rewrite Hout in Hdelta.
  pose proof Hwf as (HWs & Hk & HC & Hs & Hpad & Hs1).
  set (L1 := mk_convLayer _ _ _ _ _ _ (Some xp) _) in *.
  assert (conv_wf L1 C D k s p) as Hwf1 by (repeat split; assumption).
  destruct (conv_backward_loop_spec L1 C D k s p xp delta
              (H + 2 * p) (Wd + 2 * p) (out_dim H k s p) (out_dim H k s p)
              Hwf1 HC1 eq_refl Hxp Hdelta)
    as [dX [dW (Eloop & HsX & HsW & HdX & HdW)]].
  - intros h Hh. apply out_dim_window; assumption.
  - intros w Hw. pose proof (out_dim_window H k s p w Hs1 Hfit Hw). lia.
  - destruct (crop_spec dX D (H + 2 * p) (Wd + 2 * p) p HsX) as [ret (Ecrop & Hsret & _)].
    exists dX, dW, ret. split; [exact Eloop |].
    split.
    { unfold convLayer_backward. rewrite Eloop. cbn [bind].
      change (pad L1) with (pad L). pose proof Ecrop as Ecrop'.
      rewrite <- Hpad in Ecrop'. rewrite Ecrop'. reflexivity. }
    split; [exact Ecrop |]. split; [exact HsX |]. split; [exact HsW |].
    split.
    { rewrite Hsret. destruct (Nat.eqb_spec p 0); [reflexivity |].
      f_equal. f_equal; [lia |]. f_equal. lia. }
    split; [exact HdX |].
    intros c d di dj Hc Hd Hdi Hdj. rewrite (HdW c d di dj Hc Hd Hdi Hdj).
    unfold dW_sum, dW_term. cbn [fst snd].
    apply sum_range_ext; intros i _. apply sum_range_ext; intros j _.
    rewrite Hpx. reflexivity.
Qed.

(** ** The store *)

Lemma store_set_length (st : store) (r : ref) (a : ndarray Qc) :
  List.length (store_set st r a) = List.length st.
Proof.
  revert r. induction st as [| b st IH]; intro r; [reflexivity |].
  destruct r; simpl; [reflexivity | rewrite IH; reflexivity].
Qed.

Lemma deref_store_set (st : store) (r : ref) (a : ndarray Qc) :
  (r < List.length st)%nat -> deref (store_set st r a) r = a.
Proof.
  unfold deref. revert r. induction st as [| b st IH]; intros r Hr; simpl in *; [lia |].
  destruct r; simpl; [reflexivity | apply IH; lia].
Qed.

Lemma deref_store_set_other (st : store) (r r' : ref) (a : ndarray Qc) :
  r' <> r -> deref (store_set st r a) r' = deref st r'.
Proof.
  unfold deref. revert r r'. induction st as [| b st IH]; intros r r' Hne; simpl; [reflexivity |].
  destruct r, r'; simpl; try reflexivity; [lia | apply IH; lia].
Qed.

Lemma store_set_twice (st : store) (r : ref) (a b : ndarray Qc) :
  store_set (store_set st r a) r b = store_set st r b.
Proof.
  revert r. induction st as [| c st IH]; intro r; [reflexivity |].
  destruct r; simpl; [reflexivity | rewrite IH; reflexivity].
Qed.

Lemma store_set_deref (st : store) (r : ref) : store_set st r (deref st r) = st.
Proof.
  unfold deref. revert r. induction st as [| c st IH]; intro r; [reflexivity |].
  destruct r; simpl; [reflexivity | rewrite IH; reflexivity].
Qed.

Lemma deref_alloc (st : store) (a : ndarray Qc) : deref (st ++ [a]) (List.length st) = a.
Proof. unfold deref. rewrite app_nth2, Nat.sub_diag by lia. reflexivity. Qed.

Lemma deref_alloc_old (st : store) (a : ndarray Qc) (r : ref) :
  (r < List.length st)%nat -> deref (st ++ [a]) r = deref st r.
Proof. intro Hr. unfold deref. apply app_nth1. exact Hr. Qed.

Lemma store_set_alloc (st : store) (a b : ndarray Qc) :
  store_set (st ++ [a]) (List.length st) b = st ++ [b].
Proof. induction st as [| c st IH]; simpl; [reflexivity | rewrite IH; reflexivity]. Qed.

(** A loop on the object behind a reference is the loop on the object,
    written back once. *)
Lemma for_loop_on_ref {I S : Type}
  (body : I -> S * ndarray Qc -> result (S * ndarray Qc))
  (l : list I) (r : ref) (s : S) (st : store) :
  (r < List.length st)%nat ->
  for_loop l (fun p => on_ref r (body p)) (s, st)
  = match for_loop l body (s, deref st r) with
    | Ok (s', a') => Ok (s', store_set st r a')
    | Raise e => Raise e
    end.
Proof.
  revert s st. induction l as [| p l IH]; intros s st Hr.
  - simpl. rewrite store_set_deref. reflexivity.
  - simpl. destruct (body p (s, deref st r)) as [[s1 a1] | e]; [| reflexivity].
    cbn [bind]. rewrite IH by (rewrite store_set_length; exact Hr).
    rewrite deref_store_set by exact Hr.
    destruct (for_loop l body (s1, a1)) as [[s' a'] | e]; [| reflexivity].
    rewrite store_set_twice. reflexivity.
Qed.

(** ** Loops whose iterations touch disjoint places *)

Lemma NoDup_range2 (n m : nat) : NoDup (range2 n m).
Proof.
  unfold range2, range. generalize 0%nat at 2. induction n as [| n IH]; intro a.
  - constructor.
  - simpl. apply NoDup_app.
    + generalize (seq_NoDup m 0). generalize (seq 0 m).
      induction 1 as [| j l Hj Hl IHl]; simpl; constructor; [| exact IHl].
      intro Hin. apply in_map_iff in Hin. destruct Hin as [j' [E Hj']].
      inversion E; subst. contradiction.
    + apply IH.
    + intros [i j] H1 H2. apply in_map_iff in H1. destruct H1 as [j' [E _]].
      apply in_flat_map in H2. destruct H2 as [i' [Hi' Hj']].
      apply in_map_iff in Hj'. destruct Hj' as [j'' [E' _]].
      apply in_seq in Hi'. inversion E; inversion E'; subst. lia.
Qed.

Lemma fold_no_hit {I : Type} (hit : I -> bool) (g : I -> Qc -> Qc) (l : list I) (v0 : Qc) :
  (forall p, In p l -> hit p = false) ->
  fold_left (fun v p => if hit p then g p v else v) l v0 = v0.
Proof.
  revert v0. induction l as [| a l IH]; intros v0 H; [reflexivity |].
  simpl. rewrite (H a) by (left; reflexivity). apply IH.
  intros p Hp. apply H. right. exact Hp.
Qed.

Lemma fold_single_hit {I : Type} (hit : I -> bool) (g : I -> Qc -> Qc)
  (l : list I) (p0 : I) (v0 : Qc) :
  NoDup l -> In p0 l -> hit p0 = true ->
  (forall p, In p l -> hit p = true -> p = p0) ->
  fold_left (fun v p => if hit p then g p v else v) l v0 = g p0 v0.
Proof.
  revert v0. induction l as [| a l IH]; intros v0 Hnd Hin Hhit Huniq; [contradiction |].
  inversion Hnd as [| a' l' Hnotin Hnd']; subst. simpl.
  destruct (hit a) eqn:Ea.
  - assert (a = p0) by (apply Huniq; [left; reflexivity | exact Ea]). subst a.
    apply fold_no_hit. intros p Hp. destruct (hit p) eqn:Ep; [| reflexivity].
    assert (p = p0) by (apply Huniq; [right; exact Hp | exact Ep]). subst p. contradiction.
  - destruct Hin as [-> | Hin]; [congruence |].
    apply IH; try assumption. intros p Hp. apply Huniq. right. exact Hp.
Qed.

(** A failing iteration makes the loop fail, provided the earlier ones
    either keep [ok] or fail in the same way. *)
Lemma for_loop_raises {I S : Type} (ok : S -> Prop) (body : I -> S -> result S)
  (e : exn) (l : list I) (s0 : S) :
  ok s0 ->
  (forall p s, In p l -> ok s ->
     (exists s', body p s = Ok s' /\ ok s') \/ body p s = Raise e) ->
  (exists p, In p l /\ forall s, ok s -> body p s = Raise e) ->
  for_loop l body s0 = Raise e.
Proof.
  revert s0. induction l as [| a l IH]; intros s0 Hok Hstep [p [Hin Hbad]]; [contradiction |].
  simpl. destruct (Hstep a s0 (or_introl eq_refl) Hok) as [[s' [E Hok']] | E];
    rewrite E; [| reflexivity].
  destruct Hin as [-> | Hin]; [rewrite (Hbad s0 Hok) in E; discriminate |].
  apply IH; [exact Hok' | | exists p; auto].
  intros q s Hq Hs. apply Hstep; [right; exact Hq | exact Hs].
Qed.

(** ** The max-pool layer: forward *)

Lemma slice_window2 (n i : nat) :
  slice n (Z.of_nat i * 2) (Z.of_nat i * 2 + 2)
  = (Nat.min n (i * 2), Nat.min n (i * 2 + 2) - Nat.min n (i * 2))%nat.
Proof.
  change 2%Z with (Z.of_nat 2). rewrite <- Nat2Z.inj_mul. apply slice_clip.
Qed.

Lemma pool_forward_body_ok (x output cache : ndarray Qc) (D H Wd n m i j : nat) :
  shape x = [D; H; Wd] ->
  shape output = [D; n; m] ->
  shape cache = [D; H; Wd] ->
  (i < n)%nat -> (j < m)%nat ->
  (i * 2 + 2 <= H)%nat -> (j * 2 + 2 <= Wd)%nat ->
  exists acc', pool_forward_body x (i, j) (output, cache) = Ok acc' /\
               shape (fst acc') = [D; n; m] /\
               shape (snd acc') = [D; H; Wd] /\
               forall e, pool_dom D e ->
                 pool_obs acc' e = pool_forward_effect x (i, j) e (pool_obs (output, cache) e).
Proof.
  intros Hx Hout Hcache Hi Hj Hrow Hcol.
  unfold pool_forward_body, getitem_box. rewrite Hx, !slice_window2.
  replace (Nat.min H (i * 2)) with (i * 2)%nat by lia.
  replace (Nat.min H (i * 2 + 2) - i * 2)%nat with 2%nat by lia.
  replace (Nat.min Wd (j * 2)) with (j * 2)%nat by lia.
  replace (Nat.min Wd (j * 2 + 2) - j * 2)%nat with 2%nat by lia.
  cbn [bind]. unfold np_amax_12. cbn [shape Nat.eqb orb bind].
  unfold iop_col. rewrite Hout.
  pose proof Hi as Hi'. pose proof Hj as Hj'.
  apply Nat.ltb_lt in Hi', Hj'. rewrite Hi', Hj'. cbn [andb shape].
  unfold broadcasts_to at 1, broadcast_shapes at 1. cbn [rev app bshape_rev].
  rewrite bdim_refl. cbn [option_map rev app].
  destruct (list_eq_dec Nat.eq_dec [D] [D]) as [_ | ne]; [| congruence].
  cbn [bind]. unfold getitem_col. cbn [shape]. rewrite Hi', Hj'.
  cbn [andb bind]. unfold reshape_m1_1_1. cbn [shape size fold_right].
  rewrite Nat.mul_1_r. unfold map2_nd. cbn [shape].
  unfold broadcast_shapes at 1. cbn [rev app bshape_rev].
  rewrite !bdim_1_r, bdim_refl. cbn [option_map rev app bind nth].
  unfold np_where. cbn [shape ones zeros].
  unfold broadcast_shapes. cbn [rev app bshape_rev].
  rewrite !bdim_refl. cbn [option_map rev app bshape_rev].
  rewrite !bdim_refl. cbn [option_map rev app bind].
  unfold iop_box. rewrite Hcache, !slice_window2.
  replace (Nat.min H (i * 2)) with (i * 2)%nat by lia.
  replace (Nat.min H (i * 2 + 2) - i * 2)%nat with 2%nat by lia.
  replace (Nat.min Wd (j * 2)) with (j * 2)%nat by lia.
  replace (Nat.min Wd (j * 2 + 2) - j * 2)%nat with 2%nat by lia.
  cbn [shape]. unfold broadcasts_to, broadcast_shapes. cbn [rev app bshape_rev].
  rewrite !bdim_refl. cbn [option_map rev app].
  destruct (list_eq_dec Nat.eq_dec [D; 2; 2]%nat [D; 2; 2]%nat) as [_ | ne];
    [| congruence].
  cbn [bind]. eexists. split; [reflexivity |]. cbn [fst snd shape].
  split; [reflexivity |]. split; [reflexivity |].
  intros [[[d i0] j0] | [[d r] c]] Hd; cbn [pool_dom] in Hd;
    cbn [pool_obs pool_forward_effect fst snd data].
  - destruct ((i0 =? i) && (j0 =? j))%nat; [| reflexivity].
    unfold bindex. cbn [List.length Nat.sub skipn pin].
    rewrite (pin1 _ _ Hd). reflexivity.
  - unfold in_window.
    replace ((i * 2 <=? r) && (r <? i * 2 + 2) && (j * 2 <=? c) && (c <? j * 2 + 2))%nat
      with ((i * 2 <=? r) && (r <? i * 2 + 2) && ((j * 2 <=? c) && (c <? j * 2 + 2)))%nat
      by (rewrite !andb_assoc; reflexivity).
    destruct ((i * 2 <=? r) && (r <? i * 2 + 2))%nat eqn:Er; [| reflexivity].
    destruct ((j * 2 <=? c) && (c <? j * 2 + 2))%nat eqn:Ec; [| reflexivity].
    cbn [andb]. unfold assign.
    apply andb_true_iff in Er, Ec. destruct Er as [Er1 Er2], Ec as [Ec1 Ec2].
    apply Nat.leb_le in Er1, Ec1. apply Nat.ltb_lt in Er2, Ec2.
    assert (r - i * 2 < 2)%nat as Hr by lia.
    assert (c - j * 2 < 2)%nat as Hc by lia.
    unfold bindex. cbn [List.length Nat.sub skipn pin Nat.eqb hd unravel fold_right].
    rewrite !(pin1 _ _ Hd), !Nat.eqb_refl, Nat.div_1_r, (pin1 _ _ Hd).
    cbn [andb ones zeros data].
    replace (i * 2 + (r - i * 2))%nat with r by lia.
    replace (j * 2 + (c - j * 2))%nat with c by lia.
    reflexivity.
Qed.

(** On a window that the input covers only in part, [np.where] still
    builds a 2x2 map, and writing it to the smaller view raises. *)
Lemma pool_forward_body_partial (x output cache : ndarray Qc) (D H Wd n m i j : nat) :
  shape x = [D; H; Wd] ->
  shape output = [D; n; m] ->
  shape cache = [D; H; Wd] ->
  (i < n)%nat -> (j < m)%nat ->
  (i * 2 < H)%nat -> (j * 2 < Wd)%nat ->
  (H < i * 2 + 2 \/ Wd < j * 2 + 2)%nat ->
  pool_forward_body x (i, j) (output, cache) = Raise ValueError.
Proof.
  intros Hx Hout Hcache Hi Hj Hrow Hcol Hpart.
  unfold pool_forward_body, getitem_box. rewrite Hx, !slice_window2.
  replace (Nat.min H (i * 2)) with (i * 2)%nat by lia.
  replace (Nat.min Wd (j * 2)) with (j * 2)%nat by lia.
  remember (Nat.min H (i * 2 + 2) - i * 2)%nat as rl eqn:Erl.
  remember (Nat.min Wd (j * 2 + 2) - j * 2)%nat as cl eqn:Ecl.
  assert (rl = 1 \/ rl = 2)%nat as Hrl by lia.
  assert (cl = 1 \/ cl = 2)%nat as Hcl by lia.
  assert (~ (rl = 2 /\ cl = 2))%nat as Hnot by lia.
  cbn [bind]. unfold np_amax_12. cbn [shape].
  replace ((rl =? 0) || (cl =? 0))%nat with false
    by (destruct Hrl as [-> | ->], Hcl as [-> | ->]; reflexivity).
  cbn [bind]. unfold iop_col. rewrite Hout.
  apply Nat.ltb_lt in Hi, Hj. rewrite Hi, Hj. cbn [andb shape].
  unfold broadcasts_to at 1, broadcast_shapes at 1. cbn [rev app bshape_rev].
  rewrite bdim_refl. cbn [option_map rev app].
  destruct (list_eq_dec Nat.eq_dec [D] [D]) as [_ | ne]; [| congruence].
  cbn [bind]. unfold getitem_col. cbn [shape]. rewrite Hi, Hj.
  cbn [andb bind]. unfold reshape_m1_1_1. cbn [shape size fold_right].
  rewrite Nat.mul_1_r. unfold map2_nd. cbn [shape].
  unfold broadcast_shapes at 1. cbn [rev app bshape_rev].
  rewrite !bdim_1_r, bdim_refl. cbn [option_map rev app bind nth].
  unfold np_where. cbn [shape ones zeros].
  unfold iop_box. rewrite Hcache, !slice_window2.
  replace (Nat.min H (i * 2)) with (i * 2)%nat by lia.
  replace (Nat.min Wd (j * 2)) with (j * 2)%nat by lia.
  rewrite <- Erl, <- Ecl. clear Erl Ecl.
  unfold broadcasts_to, broadcast_shapes.
  destruct Hrl as [-> | ->], Hcl as [-> | ->];
    try (exfalso; apply Hnot; split; reflexivity);
    cbn [rev app bshape_rev]; rewrite !bdim_refl;
    cbn [bdim Nat.eqb option_map rev app bshape_rev bind shape];
    rewrite !bdim_refl; cbn [option_map rev app bind shape bshape_rev];
    rewrite ?bdim_refl; cbn [bdim Nat.eqb option_map rev app];
    match goal with
    | |- context [list_eq_dec Nat.eq_dec ?a ?b] =>
        destruct (list_eq_dec Nat.eq_dec a b) as [E | _];
        [inversion E | reflexivity]
    end.
Qed.

Lemma half_up_bounds (H : nat) : ((H + 1) / 2 * 2 <= H + 1 < (H + 1) / 2 * 2 + 2)%nat.
Proof.
  pose proof (Nat.div_mod_eq (H + 1) 2).
  pose proof (Nat.mod_upper_bound (H + 1) 2). lia.
Qed.

Lemma half_bounds (r : nat) : (r / 2 * 2 <= r < r / 2 * 2 + 2)%nat.
Proof.
  pose proof (Nat.div_mod_eq r 2). pose proof (Nat.mod_upper_bound r 2). lia.
Qed.

Lemma in_window2_iff (i r : nat) : in_window i 2 2 r = true <-> i = (r / 2)%nat.
Proof.
  unfold in_window. rewrite andb_true_iff, Nat.leb_le, Nat.ltb_lt.
  pose proof (half_bounds r). lia.
Qed.

Lemma in_window2_pair (p : nat * nat) (r c : nat) :
  in_window (fst p) 2 2 r && in_window (snd p) 2 2 c = true <-> p = (r / 2, c / 2)%nat.
Proof.
  rewrite andb_true_iff, !in_window2_iff. destruct p as [i j]. cbn [fst snd].
  split; [intros [-> ->]; reflexivity | intro E; inversion E; auto].
Qed.

Lemma eqb_pair (p : nat * nat) (i j : nat) :
  ((i =? fst p) && (j =? snd p))%nat = true <-> p = (i, j).
Proof.
  rewrite andb_true_iff, !Nat.eqb_eq. destruct p as [a b]. cbn [fst snd].
  split; [intros [-> ->]; reflexivity | intro E; inversion E; auto].
Qed.

Lemma windows_full_even (n m : nat) : windows_full n m (n * 2) (m * 2).
Proof. intros i j Hi Hj. lia. Qed.

Lemma windows_full_dec (H Wd : nat) :
  windows_full ((H + 1) / 2) ((Wd + 1) / 2) H Wd \/
  exists i j, (i < (H + 1) / 2 /\ j < (Wd + 1) / 2 /\
               (H < i * 2 + 2 \/ Wd < j * 2 + 2))%nat.
Proof.
  pose proof (half_up_bounds H) as BH. pose proof (half_up_bounds Wd) as BW.
  set (n := ((H + 1) / 2)%nat) in *. set (m := ((Wd + 1) / 2)%nat) in *.
  destruct n as [| n']; [left; intros i j Hi Hj; lia |].
  destruct m as [| m']; [left; intros i j Hi Hj; lia |].
  destruct (le_lt_dec (n' * 2 + 2) H) as [Hr | Hr];
    [destruct (le_lt_dec (m' * 2 + 2) Wd) as [Hc | Hc] |].
  - left. intros i j Hi Hj. lia.
  - right. exists n', m'. lia.
  - right. exists n', m'. lia.
Qed.

(** What [__call__] does when every window is whole. *)
Lemma MaxPool_call_spec (self : MaxPool) (x : ndarray Qc) (st : store) (D H Wd : nat) :
  shape x = [D; H; Wd] ->
  windows_full ((H + 1) / 2) ((Wd + 1) / 2) H Wd ->
  exists out cache,
    MaxPool_call self x st
    = Ok (out, mk_MaxPool (Some (List.length st)), st ++ [cache]) /\
    shape out = [D; (H + 1) / 2; (Wd + 1) / 2]%nat /\
    shape cache = [D; H; Wd] /\
    (forall d i j, (d < D)%nat -> (i < (H + 1) / 2)%nat -> (j < (Wd + 1) / 2)%nat ->
       data out [d; i; j] = win_max x d i j) /\
    (forall d r c, (d < D)%nat -> (r < H)%nat -> (c < Wd)%nat ->
       data cache [d; r; c]
       = if Qceqb (data x [d; r; c]) (win_max x d (r / 2) (c / 2)) then 1 else 0).
Proof.
  intros Hx Hfull. unfold MaxPool_call, alloc. rewrite Hx.
  pose proof (half_up_bounds H) as BH. pose proof (half_up_bounds Wd) as BW.
  set (n := ((H + 1) / 2)%nat) in *. set (m := ((Wd + 1) / 2)%nat) in *.
  cbn [zeros shape nth].
  rewrite for_loop_on_ref by (rewrite length_app; simpl; lia).
  rewrite deref_alloc.
  destruct (for_loop_obs
              (fun acc : ndarray Qc * ndarray Qc =>
                 shape (fst acc) = [D; n; m] /\ shape (snd acc) = [D; H; Wd])
              (pool_dom D) pool_obs (pool_forward_effect x)
              (pool_forward_body x) (range2 n m)
              (zeros [D; n; m], zeros [D; H; Wd]))
    as [[out cache] (Eloop & [Hso Hsc] & Hobs)].
  - cbn [fst snd shape]. auto.
  - intros [i j] [o c] Hin [Hso Hsc]. cbn [fst snd] in Hso, Hsc.
    apply in_range2 in Hin. destruct Hin as [Hi Hj].
    destruct (Hfull i j Hi Hj) as [Hrow Hcol].
    destruct (pool_forward_body_ok x o c D H Wd n m i j)
      as [acc' (E & H1 & H2 & H3)]; auto.
    exists acc'. auto.
  - cbn [fst snd] in Hso, Hsc. rewrite Eloop. cbn [bind].
    rewrite store_set_alloc. exists out, cache.
    split; [reflexivity |]. split; [exact Hso |]. split; [exact Hsc |]. split.
    + intros d i j Hd Hi Hj. pose proof (Hobs (inl (d, i, j)) Hd) as Hv.
      cbn [pool_obs fst snd data] in Hv. rewrite Hv.
      exact (fold_single_hit
               (fun p => ((i =? fst p) && (j =? snd p))%nat)
               (fun p _ => win_max x d (fst p) (snd p))
               (range2 n m) (i, j) 0 (NoDup_range2 n m)
               (proj2 (in_range2 n m i j) (conj Hi Hj))
               (proj2 (eqb_pair (i, j) i j) eq_refl)
               (fun p _ Hp => proj1 (eqb_pair p i j) Hp)).
    + intros d r c Hd Hr Hc. pose proof (Hobs (inr (d, r, c)) Hd) as Hv.
      cbn [pool_obs fst snd data] in Hv. rewrite Hv.
      assert (In (r / 2, c / 2)%nat (range2 n m)) as Hin.
      { apply in_range2. pose proof (half_bounds r). pose proof (half_bounds c). lia. }
      exact (fold_single_hit
               (fun p => in_window (fst p) 2 2 r && in_window (snd p) 2 2 c)
               (fun p _ => if Qceqb (data x [d; r; c]) (win_max x d (fst p) (snd p))
                           then 1 else 0)
               (range2 n m) (r / 2, c / 2)%nat 0 (NoDup_range2 n m) Hin
               (proj2 (in_window2_pair (r / 2, c / 2)%nat r c) eq_refl)
               (fun p _ Hp => proj1 (in_window2_pair p r c) Hp)).
Qed.

(** When some window is cut by the edge of the input, [__call__] raises. *)
Lemma MaxPool_call_partial (self : MaxPool) (x : ndarray Qc) (st : store) (D H Wd : nat) :
  shape x = [D; H; Wd] ->
  (exists i j, (i < (H + 1) / 2 /\ j < (Wd + 1) / 2 /\
                (H < i * 2 + 2 \/ Wd < j * 2 + 2))%nat) ->
  MaxPool_call self x st = Raise ValueError.
Proof.
  intros Hx (i0 & j0 & Hi0 & Hj0 & Hpart). unfold MaxPool_call, alloc. rewrite Hx.
  cbn [zeros shape nth].
  pose proof (half_up_bounds H) as BH. pose proof (half_up_bounds Wd) as BW.
  set (n := ((H + 1) / 2)%nat) in *. set (m := ((Wd + 1) / 2)%nat) in *.
  rewrite for_loop_on_ref by (rewrite length_app; simpl; lia).
  rewrite deref_alloc.
  rewrite (for_loop_raises
             (fun acc : ndarray Qc * ndarray Qc =>
                shape (fst acc) = [D; n; m] /\ shape (snd acc) = [D; H; Wd])
             (pool_forward_body x) ValueError); [reflexivity | | |].
  - cbn [fst snd shape]. auto.
  - intros [i j] [o c] Hin [Hso Hsc]. cbn [fst snd] in Hso, Hsc.
    apply in_range2 in Hin. destruct Hin as [Hi Hj].
    destruct (le_lt_dec (i * 2 + 2) H) as [Hr | Hr];
      [destruct (le_lt_dec (j * 2 + 2) Wd) as [Hc | Hc] |].
    + left.
      destruct (pool_forward_body_ok x o c D H Wd n m i j)
        as [acc' (E & H1 & H2 & _)]; auto.
      exists acc'. auto.
    + right. apply (pool_forward_body_partial x o c D H Wd n m i j); auto; lia.
    + right. apply (pool_forward_body_partial x o c D H Wd n m i j); auto; lia.
  - exists (i0, j0). split; [apply in_range2; lia |].
    intros [o c] [Hso Hsc]. cbn [fst snd] in Hso, Hsc.
    apply (pool_forward_body_partial x o c D H Wd n m); auto; lia.
Qed.

(** On an input with an odd height or width, and at least one row and one
    column, some window is cut. *)
Lemma odd_has_partial_window (H Wd : nat) :
  (1 <= H)%nat -> (1 <= Wd)%nat ->
  (Nat.odd H = true \/ Nat.odd Wd = true) ->
  exists i j, (i < (H + 1) / 2 /\ j < (Wd + 1) / 2 /\
               (H < i * 2 + 2 \/ Wd < j * 2 + 2))%nat.
Proof.
  intros HH HW Hodd.
  pose proof (half_up_bounds H) as BH. pose proof (half_up_bounds Wd) as BW.
  set (n := ((H + 1) / 2)%nat) in *. set (m := ((Wd + 1) / 2)%nat) in *.
  destruct Hodd as [E | E]; apply Nat.odd_spec in E; destruct E as [q Eq].
  - exists (n - 1)%nat, 0%nat. lia.
  - exists 0%nat, (m - 1)%nat. lia.
Qed.

(** ** The max-pool layer: backward *)

Lemma pool_backward_body_ok (delta cache : ndarray Qc) (D H Wd n m i j : nat) :
  shape delta = [D; n; m] ->
  shape cache = [D; H; Wd] ->
  (i < n)%nat -> (j < m)%nat ->
  (i * 2 + 2 <= H)%nat -> (j * 2 + 2 <= Wd)%nat ->
  exists cache', pool_backward_body delta (i, j) (tt, cache) = Ok (tt, cache') /\
                 shape cache' = [D; H; Wd] /\
                 forall d r c, (d < D)%nat ->
                   data cache' [d; r; c]
                   = pool_backward_effect delta (i, j) (d, r, c) (data cache [d; r; c]).
Proof.
  intros Hdelta Hcache Hi Hj Hrow Hcol.
  unfold pool_backward_body.
  rewrite (getitem_col_3 delta D n m i j Hdelta Hi Hj). cbn [bind snd].
  unfold iop_box. rewrite Hcache, !slice_window2.
  replace (Nat.min H (i * 2)) with (i * 2)%nat by lia.
  replace (Nat.min H (i * 2 + 2) - i * 2)%nat with 2%nat by lia.
  replace (Nat.min Wd (j * 2)) with (j * 2)%nat by lia.
  replace (Nat.min Wd (j * 2 + 2) - j * 2)%nat with 2%nat by lia.
  unfold reshape_m1_1_1. cbn [shape size fold_right]. rewrite Nat.mul_1_r.
  unfold broadcasts_to, broadcast_shapes. cbn [rev app bshape_rev].
  rewrite !bdim_1_l, bdim_refl. cbn [option_map rev app].
  destruct (list_eq_dec Nat.eq_dec [D; 2; 2]%nat [D; 2; 2]%nat) as [_ | ne];
    [| congruence].
  cbn [bind]. eexists. split; [reflexivity |]. split; [reflexivity |].
  intros d r c Hd. cbn [data]. unfold pool_backward_effect, in_window. cbn [fst snd].
  replace ((i * 2 <=? r) && (r <? i * 2 + 2) && (j * 2 <=? c) && (c <? j * 2 + 2))%nat
    with ((i * 2 <=? r) && (r <? i * 2 + 2) && ((j * 2 <=? c) && (c <? j * 2 + 2)))%nat
    by (rewrite !andb_assoc; reflexivity).
  destruct ((i * 2 <=? r) && (r <? i * 2 + 2) && ((j * 2 <=? c) && (c <? j * 2 + 2)))%nat;
    [| reflexivity].
  unfold bindex. cbn [List.length Nat.sub skipn pin Nat.eqb hd unravel fold_right].
  rewrite (pin1 _ _ Hd), Nat.div_1_r. reflexivity.
Qed.

(** What [backward] does when every window that [delta] addresses lies
    inside the cache: every cache entry of such a window is multiplied by
    the window's [delta] entry, in the cache object itself, and the
    reference to that object is returned. *)
Lemma MaxPool_backward_spec (self : MaxPool) (delta : ndarray Qc) (st : store)
  (r : ref) (D H Wd n m : nat) :
  pool_cache self = Some r ->
  (r < List.length st)%nat ->
  shape (deref st r) = [D; H; Wd] ->
  shape delta = [D; n; m] ->
  windows_full n m H Wd ->
  exists g,
    MaxPool_backward self delta st = Ok (r, store_set st r g) /\
    shape g = [D; H; Wd] /\
    forall d row col, (d < D)%nat -> (row / 2 < n)%nat -> (col / 2 < m)%nat ->
      data g [d; row; col]
      = data (deref st r) [d; row; col] * data delta [d; row / 2; col / 2]%nat.
Proof.
  intros Hself Hr Hcache Hdelta Hfull. unfold MaxPool_backward. rewrite Hself, Hdelta.
  rewrite for_loop_on_ref by exact Hr.
  destruct (for_loop_obs
              (fun acc : unit * ndarray Qc => shape (snd acc) = [D; H; Wd])
              (fun e : nat * nat * nat => (fst (fst e) < D)%nat)
              (fun acc e => data (snd acc) [fst (fst e); snd (fst e); snd e])
              (pool_backward_effect delta)
              (pool_backward_body delta) (range2 n m) (tt, deref st r))
    as [[[] g] (Eloop & Hsg & Hobs)].
  - exact Hcache.
  - intros [i j] [[] c] Hin Hsc. cbn [snd] in Hsc.
    apply in_range2 in Hin. destruct Hin as [Hi Hj].
    destruct (Hfull i j Hi Hj) as [Hrow Hcol].
    destruct (pool_backward_body_ok delta c D H Wd n m i j)
      as [c' (E & H1 & H2)]; auto.
    exists (tt, c'). split; [exact E |]. split; [exact H1 |].
    intros [[d row] col] Hd. apply H2. exact Hd.
  - cbn [snd] in Hsg. rewrite Eloop. cbn [bind]. exists g.
    split; [reflexivity |]. split; [exact Hsg |].
    intros d row col Hd Hrow Hcol. pose proof (Hobs (d, row, col) Hd) as Hv.
    cbn [fst snd] in Hv. rewrite Hv.
    assert (In (row / 2, col / 2)%nat (range2 n m)) as Hin
      by (apply in_range2; auto).
    exact (fold_single_hit
             (fun p => in_window (fst p) 2 2 row && in_window (snd p) 2 2 col)
             (fun p v => v * data delta [d; fst p; snd p])
             (range2 n m) (row / 2, col / 2)%nat _ (NoDup_range2 n m) Hin
             (proj2 (in_window2_pair (row / 2, col / 2)%nat row col) eq_refl)
             (fun p _ Hp => proj1 (in_window2_pair p row col) Hp)).
Qed.

(** ** The window maximum *)

Lemma fold_Qcmax_ge (l : list Qc) (v : Qc) : v <= fold_left Qcmax l v.
Proof.
  revert v. induction l as [| a l IH]; intro v; simpl.
  - apply Qcle_refl.
  - apply Qcle_trans with (Qcmax v a); [apply Qcmax_ub_l | apply IH].
Qed.

Lemma fold_Qcmax_ub (l : list Qc) (v a : Qc) : In a l -> a <= fold_left Qcmax l v.
Proof.
  revert v. induction l as [| b l IH]; intros v Hin; [contradiction |].
  simpl. destruct Hin as [-> | Hin].
  - apply Qcle_trans with (Qcmax v a); [apply Qcmax_ub_r | apply fold_Qcmax_ge].
  - apply IH. exact Hin.
Qed.

Lemma fold_Qcmax_in (l : list Qc) (v : Qc) :
  fold_left Qcmax l v = v \/ In (fold_left Qcmax l v) l.
Proof.
  revert v. induction l as [| b l IH]; intro v; simpl; [left; reflexivity |].
  destruct (IH (Qcmax v b)) as [E | Hin]; [| right; right; exact Hin].
  rewrite E. destruct (Qcmax_cases v b) as [-> | ->]; auto.
Qed.

Lemma amax_list_ub (l : list Qc) (a : Qc) : In a l -> a <= amax_list l.
Proof.
  destruct l as [| v l]; [contradiction |]. intros [-> | Hin]; simpl.
  - apply fold_Qcmax_ge.
  - apply fold_Qcmax_ub. exact Hin.
Qed.

Lemma amax_list_in (l : list Qc) : l <> [] -> In (amax_list l) l.
Proof.
  destruct l as [| v l]; [congruence |]. intros _. simpl.
  destruct (fold_Qcmax_in l v) as [-> | Hin]; auto.
Qed.

Lemma win_max_is_max (x : ndarray Qc) (d i j : nat) :
  is_window_max x d i j (win_max x d i j).
Proof.
  unfold is_window_max, win_max. split.
  - intros a b Ha Hb. apply amax_list_ub.
    destruct a as [| [| a]], b as [| [| b]]; try lia; simpl; auto.
  - match goal with |- context [amax_list ?l] =>
      destruct (amax_list_in l) as [E | [E | [E | [E | []]]]]; [discriminate | | | |]
    end.
    + exists 0%nat, 0%nat. auto.
    + exists 0%nat, 1%nat. auto.
    + exists 1%nat, 0%nat. auto.
    + exists 1%nat, 1%nat. auto.
Qed.

Lemma window_max_unique (x : ndarray Qc) (d i j : nat) (M M' : Qc) :
  is_window_max x d i j M -> is_window_max x d i j M' -> M = M'.
Proof.
  intros [Hub (a & b & Ha & Hb & E)] [Hub' (a' & b' & Ha' & Hb' & E')].
  apply Qcle_antisym.
  - rewrite <- E. apply Hub'; assumption.
  - rewrite <- E'. apply Hub; assumption.
Qed.

(** ** Frame properties: who writes the weights *)

Lemma nd_eq_refl (a : ndarray Qc) : nd_eq a a.
Proof. split; reflexivity. Qed.

Lemma nd_eq_trans (a b c : ndarray Qc) : nd_eq a b -> nd_eq b c -> nd_eq a c.
Proof.
  intros [H1 H2] [H3 H4]. split; [congruence |]. intro idx. rewrite H2. apply H4.
Qed.

Lemma convLayer_call_W (L L' : convLayer) (x out : ndarray Qc) :
  convLayer_call L x = Ok (out, L') -> W L' = W L.
Proof.
  unfold convLayer_call.
  destruct (shape x) as [| ? [| ? [| ? [| ? ?]]]]; try discriminate.
  destruct (np_pad x (pad L)); [| discriminate]. cbn [bind].
  destruct (stride L =? 0)%Z; [discriminate |].
  destruct (np_zeros _); [| discriminate]. cbn [bind].
  destruct (for_loop _ _ _); [| discriminate]. cbn [bind].
  intro E. inversion E. reflexivity.
Qed.

Lemma convLayer_backward_W (L L' : convLayer) (delta ret : ndarray Qc) :
  convLayer_backward L delta = Ok (ret, L') -> W L' = W L.
Proof.
  unfold convLayer_backward.
  destruct (conv_backward_loop L delta) as [[dX dW] |]; [| discriminate]. cbn [bind].
  destruct (getitem_box _ _ _ _ _); [| discriminate]. cbn [bind].
  intro E. inversion E. reflexivity.
Qed.

Lemma model_forward_W (x logits : ndarray Qc) (m m' : model) :
  model_forward x m = Ok (logits, m') ->
  W (conv1 m') = W (conv1 m) /\ W (conv2 m') = W (conv2 m).
Proof.
  unfold model_forward.
  destruct (convLayer_call (conv1 m) x) as [[o1 c1] |] eqn:E1; [| discriminate].
  cbn [bind ReLU_call].
  destruct (convLayer_call (conv2 m) _) as [[o2 c2] |] eqn:E2; [| discriminate].
  cbn [bind].
  destruct (MaxPool_call _ _ _) as [[[o3 mp] hp] |]; [| discriminate]. cbn [bind].
  intro E. inversion E. cbn [conv1 conv2].
  split; [exact (convLayer_call_W _ _ _ _ E1) | exact (convLayer_call_W _ _ _ _ E2)].
Qed.

Lemma model_backward_W (m m' : model) :
  model_backward m = Ok m' ->
  W (conv1 m') = W (conv1 m) /\ W (conv2 m') = W (conv2 m).
Proof.
  unfold model_backward.
  destruct (ReLU_backward (rl2 m) _); [| discriminate]. cbn [bind].
  destruct (MaxPool_backward _ _ _) as [[r hp] |]; [| discriminate]. cbn [bind].
  destruct (convLayer_backward (conv2 m) _) as [[d2 c2] |] eqn:E2; [| discriminate].
  cbn [bind].
  destruct (ReLU_backward (rl1 m) _); [| discriminate]. cbn [bind].
  destruct (convLayer_backward (conv1 m) _) as [[d1 c1] |] eqn:E1; [| discriminate].
  cbn [bind]. intro E. inversion E. cbn [conv1 conv2].
  split; [exact (convLayer_backward_W _ _ _ _ E1) | exact (convLayer_backward_W _ _ _ _ E2)].
Qed.

Lemma cost_of_W (x y : ndarray Qc) (m m' : model) (cost : Qc) :
  cost_of x y m = Ok (cost, m') ->
  W (conv1 m') = W (conv1 m) /\ W (conv2 m') = W (conv2 m).
Proof.
  unfold cost_of.
  destruct (model_forward x m) as [[logits m1] |] eqn:E1; [| discriminate]. cbn [bind].
  destruct (l2_loss_call _ _ _) as [[c l] |]; [| discriminate]. cbn [bind].
  intro E. inversion E. cbn [with_l2 conv1 conv2].
  exact (model_forward_W _ _ _ _ E1).
Qed.

Lemma set_weight_W (l : which) (idx : list nat) (v : Qc) (m m' : model) :
  set_weight l idx v m = Ok m' ->
  setitem (W (layer_of l m)) idx v = Ok (W (layer_of l m')) /\
  W (layer_of (other l) m') = W (layer_of (other l) m).
Proof.
  unfold set_weight.
  destruct (setitem (W (layer_of l m)) idx v) as [w |] eqn:E; [| discriminate].
  cbn [bind]. intro E'. inversion E'. destruct l; cbn; auto.
Qed.

Lemma layer_W_of_pair (l : which) (m m' : model) :
  W (conv1 m') = W (conv1 m) /\ W (conv2 m') = W (conv2 m) ->
  W (layer_of l m') = W (layer_of l m) /\
  W (layer_of (other l) m') = W (layer_of (other l) m).
Proof. intros [H1 H2]. destruct l; cbn; auto. Qed.

Lemma setitem_data (a a' : ndarray Qc) (idx : list nat) (v : Qc) :
  setitem a idx v = Ok a' ->
  shape a' = shape a /\
  forall k, data a' k = if list_nat_eqb k idx then v else data a k.
Proof.
  unfold setitem. destruct (in_bounds (shape a) idx); [| discriminate].
  intro E. inversion E. split; reflexivity.
Qed.

(** The two perturbed evaluations leave both weight arrays as they were. *)
Lemma check_perturb_W (x y : ndarray Qc) (l : which) (idx : list nat)
  (m m' : model) (approx : Qc) :
  check_perturb x y l idx m = Ok (approx, m') ->
  nd_eq (W (layer_of l m')) (W (layer_of l m)) /\
  W (layer_of (other l) m') = W (layer_of (other l) m).
Proof.
  unfold check_perturb.
  destruct (getitem (W (layer_of l m)) idx) as [orig |] eqn:E0; [| discriminate].
  cbn [bind].
  destruct (set_weight l idx (orig + epsilon) m) as [m1 |] eqn:E1; [| discriminate].
  cbn [bind].
  destruct (cost_of x y m1) as [[cost1 m2] |] eqn:E2; [| discriminate]. cbn [bind].
  destruct (set_weight l idx (orig - epsilon) m2) as [m3 |] eqn:E3; [| discriminate].
  cbn [bind].
  destruct (cost_of x y m3) as [[cost2 m4] |] eqn:E4; [| discriminate]. cbn [bind].
  destruct (set_weight l idx orig m4) as [m5 |] eqn:E5; [| discriminate].
  cbn [bind]. intro E. inversion E. subst m5 approx. clear E.
  apply set_weight_W in E1, E3, E5.
  destruct E1 as [S1 O1], E3 as [S3 O3], E5 as [S5 O5].
  apply cost_of_W, (layer_W_of_pair l) in E2, E4.
  destruct E2 as [L2 O2], E4 as [L4 O4].
  split; [| congruence].
  apply setitem_data in S1, S3, S5.
  destruct S1 as [Sh1 D1], S3 as [Sh3 D3], S5 as [Sh5 D5].
  rewrite L4 in Sh5, D5. rewrite L2 in Sh3, D3.
  split; [congruence |].
  intro k. rewrite D5, D3, D1.
  destruct (list_nat_eqb k idx) eqn:Ek; [| reflexivity].
  apply list_nat_eqb_eq in Ek. subst k.
  unfold getitem in E0. destruct (in_bounds _ _); [| discriminate].
  inversion E0. reflexivity.
Qed.

Lemma check_compare_W (x y : ndarray Qc) (l : which) (idx : list nat)
  (approx : Qc) (m m' : model) :
  check_compare x y l idx approx m = Ok m' ->
  W (conv1 m') = W (conv1 m) /\ W (conv2 m') = W (conv2 m).
Proof.
  unfold check_compare.
  destruct (cost_of x y m) as [[loss m1] |] eqn:E1; [| discriminate]. cbn [bind].
  destruct (model_backward m1) as [m2 |] eqn:E2; [| discriminate]. cbn [bind].
  destruct (gradW (layer_of l m2)); [| discriminate].
  destruct (getitem _ _); [| discriminate]. cbn [bind].
  destruct (Qcleb _ _); [| discriminate].
  intro E. inversion E. subst m2.
  apply cost_of_W in E1. apply model_backward_W in E2.
  destruct E1, E2. split; congruence.
Qed.

Lemma check_perturb_kept (x y : ndarray Qc) (l : which) (idx : list nat)
  (m m' : model) (approx : Qc) :
  check_perturb x y l idx m = Ok (approx, m') -> weights_kept m' m.
Proof.
  intro E. apply check_perturb_W in E. destruct E as [E1 E2].
  destruct l; cbn in E1, E2; split; try exact E1; rewrite E2; apply nd_eq_refl.
Qed.

Lemma check_body_kept (x y : ndarray Qc) (l : which) (idx : list nat) (m m' : model) :
  check_body x y l idx m = Ok m' -> weights_kept m' m.
Proof.
  unfold check_body.
  destruct (check_perturb x y l idx m) as [[approx m1] |] eqn:E1; [| discriminate].
  cbn [bind]. intro E2.
  apply check_perturb_kept in E1. apply check_compare_W in E2.
  destruct E1 as [A B], E2 as [C D]. split; [rewrite C | rewrite D]; assumption.
Qed.

Lemma for_loop_kept {I : Type} (body : I -> model -> result model) (l : list I)
  (m m' : model) :
  (forall i a b, body i a = Ok b -> weights_kept b a) ->
  for_loop l body m = Ok m' -> weights_kept m' m.
Proof.
  intro Hbody. revert m. induction l as [| i l IH]; intros m E; simpl in E.
  - inversion E. split; apply nd_eq_refl.
  - destruct (body i m) as [m1 |] eqn:E1; [| discriminate].
    apply Hbody in E1. apply IH in E. destruct E1 as [A B], E as [C D].
    split; eapply nd_eq_trans; eassumption.
Qed.

Lemma gradient_check_kept (x y : ndarray Qc) (m m' : model) :
  gradient_check x y m = Ok m' -> weights_kept m' m.
Proof.
  unfold gradient_check. apply for_loop_kept.
  intros l a b. unfold check_layer.
  destruct (shape (W (layer_of l a))) as [| ? [| ? [| ? [| ? [| ? ?]]]]]; try discriminate.
  apply for_loop_kept. intros idx a' b'. apply check_body_kept.
Qed.

(** ** Worked examples *)

(** A 2x2 kernel of ones on the 3x3 image 1..9, stride 1, no padding. *)
Example conv_forward_3x3 :
  match convLayer_call (ex_conv 2 1 1 1 0) (ex_image 1 3 3) with
  | Ok (out, _) =>
      shape out = [1; 2; 2]%nat /\
      entries out [[0; 0; 0]; [0; 0; 1]; [0; 1; 0]; [0; 1; 1]]%nat
      = [12 # 1; 16 # 1; 24 # 1; 28 # 1]%Q
  | Raise _ => False
  end.
Proof. vm_compute. split; reflexivity. Qed.

(** The same layer with padding 1: [backward] returns an array of the
    input's shape. *)
Example conv_backward_pad1 :
  match convLayer_call (ex_conv 2 1 1 1 1) (ex_image 1 2 2) with
  | Ok (_, L1) =>
      match convLayer_backward L1 (ones [1; 3; 3]%nat) with
      | Ok (ret, L2) =>
          shape ret = [1; 2; 2]%nat /\
          entries ret [[0; 0; 0]; [0; 0; 1]; [0; 1; 0]; [0; 1; 1]]%nat
          = [4 # 1; 4 # 1; 4 # 1; 4 # 1]%Q /\
          option_map (fun g => entries g [[0; 0; 0; 0]; [0; 0; 1; 1]]%nat) (gradW L2)
          = Some [10 # 1; 10 # 1]%Q
      | Raise _ => False
      end
  | Raise _ => False
  end.
Proof. vm_compute. repeat split; reflexivity. Qed.

(** Max-pooling the window 3 7 / 7 1: both places holding 7 are marked,
    and two calls of [backward] with delta = 5 scale the cache twice. *)
Example maxpool_tied_window :
  match MaxPool_call MaxPool_init ex_tied [] with
  | Ok (out, mp, st) =>
      entries out [[0; 0; 0]]%nat = [7 # 1]%Q /\
      pool_cache mp = Some 0%nat /\
      entries (deref st 0%nat) [[0; 0; 0]; [0; 0; 1]; [0; 1; 0]; [0; 1; 1]]%nat
      = [0; 1; 1; 0]%Q /\
      match MaxPool_backward mp (mk_nd [1; 1; 1]%nat (fun _ => QcofZ 5)) st with
      | Ok (r, st1) =>
          r = 0%nat /\
          entries (deref st1 r) [[0; 0; 0]; [0; 0; 1]; [0; 1; 0]; [0; 1; 1]]%nat
          = [0; 5 # 1; 5 # 1; 0]%Q /\
          match MaxPool_backward mp (mk_nd [1; 1; 1]%nat (fun _ => QcofZ 5)) st1 with
          | Ok (r', st2) =>
              r' = 0%nat /\
              entries (deref st2 r') [[0; 0; 0]; [0; 0; 1]; [0; 1; 0]; [0; 1; 1]]%nat
              = [0; 25 # 1; 25 # 1; 0]%Q
          | Raise _ => False
          end
      | Raise _ => False
      end
  | Raise _ => False
  end.
Proof. vm_compute. repeat split; reflexivity. Qed.

(** ** The claims *)

Lemma ex_conv_init (ks inputDim outDim st pd : nat) :
  convLayer_init (Z.of_nat ks) (Z.of_nat inputDim) (Z.of_nat outDim)
    (Z.of_nat st) (Z.of_nat pd) (fun _ => 1)
  = Ok (ex_conv ks inputDim outDim st pd).
Proof.
  unfold convLayer_init, ex_conv. cbn [forallb map].
  repeat match goal with |- context [(0 <=? Z.of_nat ?n)%Z] =>
    destruct (Z.leb_spec 0 (Z.of_nat n)); [| lia] end.
  cbn [andb]. rewrite !Nat2Z.id. reflexivity.
Qed.

Lemma ex_conv_wf (ks inputDim outDim st pd : nat) :
  (1 <= st)%nat -> conv_wf (ex_conv ks inputDim outDim st pd) outDim inputDim ks st pd.
Proof. intro H. repeat split. exact H. Qed.

(** C1, as amended. For a layer with kernel size k, stride s >= 1 and
    padding p, and an input of shape (D, H, W) with H <= W whose padded
    height holds the kernel (k <= H + 2p), [__call__] returns an output of
    shape (C, out, out) whose entry at channel c and position (i, j) is the
    sum over the input channels d and the kernel offsets (di, dj) of
    W[c,d,di,dj] * padded_x[d, i*s+di, j*s+dj], with nothing added. *)
Theorem conv_forward_formula (L : convLayer) (C D k s p : nat)
  (x : ndarray Qc) (H Wd : nat) :
  conv_wf L C D k s p ->
  shape x = [D; H; Wd] ->
  (H <= Wd)%nat ->
  (k <= H + 2 * p)%nat ->
  exists out L',
    convLayer_call L x = Ok (out, L') /\
    shape out = [C; out_dim H k s p; out_dim H k s p] /\
    forall c i j, (c < C)%nat -> (i < out_dim H k s p)%nat -> (j < out_dim H k s p)%nat ->
      data out [c; i; j] = conv_sum (W L) (padded_x x H Wd p) D k s c i j.
Proof.
  intros Hwf Hx HW Hfit.
  destruct (convLayer_call_spec L C D k s p x H Wd Hwf Hx HW Hfit)
    as [out [xp (E & Hs & _ & _ & Hv)]].
  eexists. eexists. split; [exact E |]. split; [exact Hs | exact Hv].
Qed.

Lemma conv_forward_formula_witness :
  exists out L',
    convLayer_call (ex_conv 2 1 1 1 0) (ex_image 1 3 3) = Ok (out, L') /\
    shape out = [1%nat; out_dim 3 2 1 0; out_dim 3 2 1 0] /\
    forall c i j, (c < 1)%nat -> (i < out_dim 3 2 1 0)%nat -> (j < out_dim 3 2 1 0)%nat ->
      data out [c; i; j]
      = conv_sum (W (ex_conv 2 1 1 1 0)) (padded_x (ex_image 1 3 3) 3 3 0) 1 2 1 c i j.
Proof.
  apply (conv_forward_formula (ex_conv 2 1 1 1 0) 1 1 2 1 0 (ex_image 1 3 3) 3 3).
  - apply ex_conv_wf. lia.
  - reflexivity.
  - lia.
  - lia.
Defined.

(** C1 fails as stated: on an input that is taller than wide the column
    windows run past the right edge and [__call__] raises. *)
Lemma conv_forward_tall_input_raises :
  conv_wf (ex_conv 2 1 1 1 0) 1 1 2 1 0 /\
  shape (ex_image 1 4 2) = [1; 4; 2]%nat /\
  convLayer_call (ex_conv 2 1 1 1 0) (ex_image 1 4 2) = Raise ValueError.
Proof.
  split; [apply ex_conv_wf; lia |]. split; [reflexivity |].
  vm_compute. reflexivity.
Qed.

(** C2, as amended. After [__call__] on an input of shape (D, H, W) with
    H <= W and k <= H + 2p, on a layer with at least one output channel,
    and for [delta] of the shape of the output, [backward] builds [dX] of
    the padded shape, whose entry (d, r, q) is the sum, over the output
    positions (i, j) whose window covers (r, q), of
    sum_c W[c,d,r-i*s,q-j*s] * delta[c,i,j]; it builds [dW] with
    dW[c,d,di,dj] = sum_(i,j) padded_x[d,i*s+di,j*s+dj] * delta[c,i,j],
    stores [dW] in [gradW], and returns [dX[:, p:-p, p:-p]]. *)
Theorem conv_backward_formula (L : convLayer) (C D k s p : nat)
  (x out delta : ndarray Qc) (H Wd : nat) (L1 : convLayer) :
  conv_wf L C D k s p ->
  (1 <= C)%nat ->
  shape x = [D; H; Wd] ->
  (H <= Wd)%nat ->
  (k <= H + 2 * p)%nat ->
  convLayer_call L x = Ok (out, L1) ->
  shape delta = shape out ->
  exists dX dW ret L2,
    conv_backward_loop L1 delta = Ok (dX, dW) /\
    convLayer_backward L1 delta = Ok (ret, L2) /\
    gradW L2 = Some dW /\
    getitem_box dX (Z.of_nat p) (- Z.of_nat p) (Z.of_nat p) (- Z.of_nat p) = Ok ret /\
    shape dX = [D; H + 2 * p; Wd + 2 * p]%nat /\
    shape dW = [C; D; k; k] /\
    (forall d r q, (d < D)%nat ->
       data dX [d; r; q]
       = sum_range (out_dim H k s p) (fun i =>
           sum_range (out_dim H k s p) (fun j =>
             if in_window i s k r && in_window j s k q
             then sum_range C (fun c =>
                    data (W L) [c; d; r - i * s; q - j * s]%nat * data delta [c; i; j])
             else 0))) /\
    (forall c d di dj, (c < C)%nat -> (d < D)%nat -> (di < k)%nat -> (dj < k)%nat ->
       data dW [c; d; di; dj]
       = sum_range (out_dim H k s p) (fun i =>
           sum_range (out_dim H k s p) (fun j =>
             padded_x x H Wd p d (i * s + di) (j * s + dj) * data delta [c; i; j]))).
Proof.
  intros Hwf HC1 Hx HW Hfit Ecall Hdelta.
  destruct (convLayer_backward_spec L C D k s p x out delta H Wd L1
              Hwf HC1 Hx HW Hfit Ecall Hdelta)
    as [dX [dW [ret (E1 & E2 & E3 & HsX & HsW & _ & HdX & HdW)]]].
  exists dX, dW, ret. eexists. split; [exact E1 |]. split; [exact E2 |].
  split; [reflexivity |]. split; [exact E3 |]. split; [exact HsX |].
  split; [exact HsW |]. split; [exact HdX | exact HdW].
Qed.

Lemma conv_backward_formula_witness :
  match convLayer_call (ex_conv 2 1 1 1 1) (ex_image 1 2 2) with
  | Ok (out, L1) =>
      exists dX dW ret L2,
        conv_backward_loop L1 (ones [1; 3; 3]%nat) = Ok (dX, dW) /\
        convLayer_backward L1 (ones [1; 3; 3]%nat) = Ok (ret, L2) /\
        gradW L2 = Some dW /\
        shape dX = [1; 4; 4]%nat /\
        shape dW = [1; 1; 2; 2]%nat
  | Raise _ => False
  end.
Proof.
  destruct (convLayer_call (ex_conv 2 1 1 1 1) (ex_image 1 2 2))
    as [[out L1] | e] eqn:E.
  - assert (shape (ones [1; 3; 3]%nat) = shape out) as Hd.
    { assert (option_map (@shape Qc)
                (match convLayer_call (ex_conv 2 1 1 1 1) (ex_image 1 2 2) with
                 | Ok (o, _) => Some o | Raise _ => None end)
              = Some [1; 3; 3]%nat) as Hs by (vm_compute; reflexivity).
      rewrite E in Hs. cbn in Hs. inversion Hs. reflexivity. }
    destruct (conv_backward_formula (ex_conv 2 1 1 1 1) 1 1 2 1 1
                (ex_image 1 2 2) out (ones [1; 3; 3]%nat) 2 2 L1)
      as [dX [dW [ret [L2 (E1 & E2 & E3 & _ & HsX & HsW & _)]]]].
    + apply ex_conv_wf. lia.
    + lia.
    + reflexivity.
    + lia.
    + lia.
    + exact E.
    + exact Hd.
    + exists dX, dW, ret, L2. auto.
  - assert (is_ok (convLayer_call (ex_conv 2 1 1 1 1) (ex_image 1 2 2)) = true) as Hok
      by (vm_compute; reflexivity).
    rewrite E in Hok. discriminate Hok.
Defined.

(** C2 fails as stated: on an input taller than wide, [__call__] may
    still return (a one-column window is broadcast), and [backward] then
    raises when it adds a full window into the clipped view of [dX]. *)
Lemma conv_backward_tall_input_raises :
  match convLayer_call (ex_conv 2 1 1 1 0) (ex_image 1 3 2) with
  | Ok (out, L1) =>
      shape out = [1; 2; 2]%nat /\
      convLayer_backward L1 (ones [1; 2; 2]%nat) = Raise ValueError
  | Raise _ => False
  end.
Proof. vm_compute. split; reflexivity. Qed.

(** C3 fails on the code: with padding 0 the crop is [dX[:, 0:0, 0:0]],
    so [backward] returns an array with no rows and no columns instead of
    one of the input's shape. *)
Theorem conv_backward_pad0_empty (L : convLayer) (C D k s : nat)
  (x out delta : ndarray Qc) (H Wd : nat) (L1 : convLayer) :
  conv_wf L C D k s 0 ->
  (1 <= C)%nat ->
  shape x = [D; H; Wd] ->
  (H <= Wd)%nat ->
  (k <= H)%nat ->
  convLayer_call L x = Ok (out, L1) ->
  shape delta = shape out ->
  exists ret L2,
    convLayer_backward L1 delta = Ok (ret, L2) /\ shape ret = [D; 0; 0]%nat.
Proof.
  intros Hwf HC1 Hx HW Hfit Ecall Hdelta.
  destruct (convLayer_backward_spec L C D k s 0 x out delta H Wd L1
              Hwf HC1 Hx HW ltac:(lia) Ecall Hdelta)
    as [dX [dW [ret (_ & E2 & _ & _ & _ & Hs & _)]]].
  exists ret. eexists. split; [exact E2 | exact Hs].
Qed.

Lemma conv_backward_pad0_empty_witness :
  match convLayer_call (ex_conv 2 1 1 1 0) (ex_image 1 3 3) with
  | Ok (out, L1) =>
      exists ret L2,
        convLayer_backward L1 (ones [1; 2; 2]%nat) = Ok (ret, L2) /\
        shape ret = [1; 0; 0]%nat
  | Raise _ => False
  end.
Proof.
  destruct (convLayer_call (ex_conv 2 1 1 1 0) (ex_image 1 3 3))
    as [[out L1] | e] eqn:E.
  - apply (conv_backward_pad0_empty (ex_conv 2 1 1 1 0) 1 1 2 1
             (ex_image 1 3 3) out (ones [1; 2; 2]%nat) 3 3 L1).
    + apply ex_conv_wf. lia.
    + lia.
    + reflexivity.
    + lia.
    + lia.
    + exact E.
    + assert (option_map (@shape Qc)
                (match convLayer_call (ex_conv 2 1 1 1 0) (ex_image 1 3 3) with
                 | Ok (o, _) => Some o | Raise _ => None end)
              = Some [1; 2; 2]%nat) as Hs by (vm_compute; reflexivity).
      rewrite E in Hs. cbn in Hs. inversion Hs. reflexivity.
  - assert (is_ok (convLayer_call (ex_conv 2 1 1 1 0) (ex_image 1 3 3)) = true) as Hok
      by (vm_compute; reflexivity).
    rewrite E in Hok. discriminate Hok.
Defined.





Lemma Qc_1_neq_0 : (1 : Qc) <> 0.
Proof. intro E. apply (f_equal this) in E. discriminate E. Qed.

Lemma half_of_window (i a : nat) : (a < 2)%nat -> ((i * 2 + a) / 2 = i)%nat.
Proof. intro Ha. pose proof (half_bounds (i * 2 + a)). lia. Qed.

(** C5 fails on the code. The one element of an input of shape (1, 1, 1)
    is the maximum of its window and should be marked 1 in the cache;
    instead [__call__] raises ValueError when it writes the 2x2 map into
    the 1x1 view of the cache, and no mask is recorded. *)
Lemma maxpool_forward_single_pixel_raises :
  shape (ex_image 1 1 1) = [1; 1; 1]%nat /\
  MaxPool_call MaxPool_init (ex_image 1 1 1) [] = Raise ValueError.
Proof. split; [reflexivity | vm_compute; reflexivity]. Qed.

(** What a completed [__call__] tells about the input and the state. *)
Lemma MaxPool_call_inv (self mp : MaxPool) (x out : ndarray Qc) (st st1 : store)
  (D H Wd : nat) :
  shape x = [D; H; Wd] ->
  MaxPool_call self x st = Ok (out, mp, st1) ->
  windows_full ((H + 1) / 2) ((Wd + 1) / 2) H Wd /\
  mp = mk_MaxPool (Some (List.length st)) /\
  shape out = [D; (H + 1) / 2; (Wd + 1) / 2]%nat /\
  exists cache,
    st1 = st ++ [cache] /\
    shape cache = [D; H; Wd] /\
    forall d r c, (d < D)%nat -> (r < H)%nat -> (c < Wd)%nat ->
      data cache [d; r; c]
      = if Qceqb (data x [d; r; c]) (win_max x d (r / 2) (c / 2)) then 1 else 0.
Proof.
  intros Hx E.
  destruct (windows_full_dec H Wd) as [Hfull | Hpart].
  - destruct (MaxPool_call_spec self x st D H Wd Hx Hfull)
      as [out' [cache (E' & Hso & Hsc & _ & Hcache)]].
    rewrite E in E'. inversion E'; subst.
    split; [exact Hfull |]. split; [reflexivity |]. split; [exact Hso |].
    exists cache. auto.
  - rewrite (MaxPool_call_partial self x st D H Wd Hx Hpart) in E. discriminate E.
Qed.

(** C6. After a [__call__] that returned, [backward] on a [delta] of the
    output's shape returns, and for every 2x2 window of the input: every
    position holding the window's maximum receives the window's [delta]
    entry (so tied positions each hold it), and when the maximum is
    attained at one position only, the returned gradient sums to that
    entry over the window. *)
Theorem maxpool_backward_window_sum (self mp : MaxPool) (x out delta : ndarray Qc)
  (st st1 : store) (D H Wd : nat) :
  shape x = [D; H; Wd] ->
  MaxPool_call self x st = Ok (out, mp, st1) ->
  shape delta = shape out ->
  exists r st2,
    MaxPool_backward mp delta st1 = Ok (r, st2) /\
    pool_cache mp = Some r /\
    forall d i j M,
      (d < D)%nat -> (i * 2 + 2 <= H)%nat -> (j * 2 + 2 <= Wd)%nat ->
      is_window_max x d i j M ->
      (forall a b, (a < 2)%nat -> (b < 2)%nat ->
         data x [d; i * 2 + a; j * 2 + b]%nat = M ->
         data (deref st2 r) [d; i * 2 + a; j * 2 + b]%nat = data delta [d; i; j]) /\
      (forall a0 b0, (a0 < 2)%nat -> (b0 < 2)%nat ->
         (forall a b, (a < 2)%nat -> (b < 2)%nat ->
            (data x [d; i * 2 + a; j * 2 + b]%nat = M <-> a = a0 /\ b = b0)) ->
         sum_range 2 (fun a =>
           sum_range 2 (fun b => data (deref st2 r) [d; i * 2 + a; j * 2 + b]%nat))
         = data delta [d; i; j]).
Proof.
  intros Hx Ecall Hdelta.
  destruct (MaxPool_call_inv self mp x out st st1 D H Wd Hx Ecall)
    as (Hfull & -> & Hso & cache & -> & Hsc & Hcache).
  rewrite Hso in Hdelta.
  destruct (MaxPool_backward_spec (mk_MaxPool (Some (List.length st))) delta
              (st ++ [cache]) (List.length st) D H Wd
              ((H + 1) / 2) ((Wd + 1) / 2) eq_refl)
    as [g (Eb & Hsg & Hg)]; try assumption.
  { rewrite length_app. simpl. lia. }
  { rewrite deref_alloc. exact Hsc. }
  rewrite deref_alloc in Hg. rewrite store_set_alloc in Eb.
  exists (List.length st), (st ++ [g]). rewrite deref_alloc.
  split; [exact Eb |]. split; [reflexivity |].
  intros d i j M Hd Hi Hj HM.
  pose proof (half_up_bounds H) as BH. pose proof (half_up_bounds Wd) as BW.
  assert (forall a b, (a < 2)%nat -> (b < 2)%nat ->
            data g [d; i * 2 + a; j * 2 + b]%nat
            = (if Qceqb (data x [d; i * 2 + a; j * 2 + b]%nat) M then 1 else 0)
              * data delta [d; i; j]) as Hval.
  { intros a b Ha Hb.
    rewrite Hg by (rewrite ?half_of_window by assumption; lia).
    rewrite Hcache by lia. rewrite !half_of_window by assumption.
    rewrite (window_max_unique x d i j M _ HM (win_max_is_max x d i j)). reflexivity. }
  split.
  - intros a b Ha Hb Hv. rewrite (Hval a b Ha Hb), (proj2 (Qceqb_eq _ _) Hv). ring.
  - intros a0 b0 Ha0 Hb0 Huniq.
    assert (forall a b, (a < 2)%nat -> (b < 2)%nat ->
              data g [d; i * 2 + a; j * 2 + b]%nat
              = if ((a =? a0) && (b =? b0))%nat then data delta [d; i; j] else 0) as Hcase.
    { intros a b Ha Hb. rewrite (Hval a b Ha Hb).
      destruct (Qceqb _ M) eqn:Eq.
      - apply Qceqb_eq, (Huniq a b Ha Hb) in Eq. destruct Eq as [-> ->].
        rewrite !Nat.eqb_refl. cbn [andb]. ring.
      - destruct ((a =? a0) && (b =? b0))%nat eqn:Eab; [| ring].
        apply andb_true_iff in Eab. destruct Eab as [Ea Eb'].
        apply Nat.eqb_eq in Ea, Eb'. subst.
        rewrite (proj2 (Qceqb_eq _ _) (proj2 (Huniq a0 b0 Ha0 Hb0) (conj eq_refl eq_refl)))
          in Eq. discriminate Eq. }
    unfold sum_range, range. cbn [seq fold_left].
    rewrite !Hcase by lia.
    destruct a0 as [| [| a0]], b0 as [| [| b0]]; try lia; cbn [Nat.eqb andb]; ring.
Qed.

Lemma maxpool_backward_window_sum_witness :
  match MaxPool_call MaxPool_init (ex_image 1 2 2) [] with
  | Ok (out, mp, st1) =>
      exists r st2,
        MaxPool_backward mp (ones [1; 1; 1]%nat) st1 = Ok (r, st2) /\
        pool_cache mp = Some r
  | Raise _ => False
  end.
Proof.
  destruct (MaxPool_call MaxPool_init (ex_image 1 2 2) []) as [[[out mp] st1] | e] eqn:E.
  - destruct (maxpool_backward_window_sum MaxPool_init mp (ex_image 1 2 2) out
                (ones [1; 1; 1]%nat) [] st1 1 2 2 eq_refl E)
      as [r [st2 (Eb & Hr & _)]].
    + assert (option_map (@shape Qc)
                (match MaxPool_call MaxPool_init (ex_image 1 2 2) [] with
                 | Ok (o, _, _) => Some o | Raise _ => None end)
              = Some [1; 1; 1]%nat) as Hs by (vm_compute; reflexivity).
      rewrite E in Hs. cbn in Hs. inversion Hs. reflexivity.
    + exists r, st2. auto.
  - assert (is_ok (MaxPool_call MaxPool_init (ex_image 1 2 2) []) = true) as Hok
      by (vm_compute; reflexivity).
    rewrite E in Hok. discriminate Hok.
Defined.

(** C7 fails on the code: for an input with an odd height or width (and
    at least one row and one column) the last window is cut, the 2x2 map
    cannot be written to it, and [__call__] raises instead of returning
    an output of shape (D, ceil(H/2), ceil(W/2)). *)
Theorem maxpool_forward_odd_raises (self : MaxPool) (x : ndarray Qc) (st : store)
  (D H Wd : nat) :
  shape x = [D; H; Wd] ->
  (1 <= H)%nat -> (1 <= Wd)%nat ->
  (Nat.odd H = true \/ Nat.odd Wd = true) ->
  MaxPool_call self x st = Raise ValueError.
Proof.
  intros Hx HH HW Hodd.
  apply (MaxPool_call_partial self x st D H Wd Hx).
  apply odd_has_partial_window; assumption.
Qed.

Lemma maxpool_forward_odd_raises_witness :
  MaxPool_call MaxPool_init (ex_image 1 3 3) [] = Raise ValueError.
Proof.
  apply (maxpool_forward_odd_raises MaxPool_init (ex_image 1 3 3) [] 1 3 3).
  - reflexivity.
  - lia.
  - lia.
  - left. reflexivity.
Defined.

(** C10. [backward] multiplies each 2x2 block of the array held in
    [self.cache] by the block's [delta] entry, in that array itself, and
    returns the reference [self.cache]; no other object changes. A second
    [backward] without a [__call__] in between therefore multiplies the
    already scaled values again. *)
Theorem maxpool_backward_in_place (self : MaxPool) (delta1 delta2 : ndarray Qc)
  (st : store) (r : ref) (D n m : nat) :
  pool_cache self = Some r ->
  (r < List.length st)%nat ->
  shape (deref st r) = [D; n * 2; m * 2]%nat ->
  shape delta1 = [D; n; m] ->
  shape delta2 = [D; n; m] ->
  exists st1 st2,
    MaxPool_backward self delta1 st = Ok (r, st1) /\
    (forall r', r' <> r -> deref st1 r' = deref st r') /\
    (forall d row col, (d < D)%nat -> (row < n * 2)%nat -> (col < m * 2)%nat ->
       data (deref st1 r) [d; row; col]
       = data (deref st r) [d; row; col] * data delta1 [d; row / 2; col / 2]%nat) /\
    MaxPool_backward self delta2 st1 = Ok (r, st2) /\
    (forall d row col, (d < D)%nat -> (row < n * 2)%nat -> (col < m * 2)%nat ->
       data (deref st2 r) [d; row; col]
       = data (deref st r) [d; row; col] * data delta1 [d; row / 2; col / 2]%nat
         * data delta2 [d; row / 2; col / 2]%nat).
Proof.
  intros Hself Hr Hcache Hd1 Hd2.
  destruct (MaxPool_backward_spec self delta1 st r D (n * 2) (m * 2) n m
              Hself Hr Hcache Hd1 (windows_full_even n m)) as [g1 (E1 & Hs1 & Hg1)].
  assert (r < List.length (store_set st r g1))%nat as Hr1
    by (rewrite store_set_length; exact Hr).
  destruct (MaxPool_backward_spec self delta2 (store_set st r g1) r D (n * 2) (m * 2) n m
              Hself Hr1) as [g2 (E2 & Hs2 & Hg2)].
  { rewrite deref_store_set by exact Hr. exact Hs1. }
  { exact Hd2. }
  { apply windows_full_even. }
  rewrite store_set_twice in E2. rewrite deref_store_set in Hg2 by exact Hr.
  exists (store_set st r g1), (store_set st r g2).
  assert (forall row, (row < n * 2)%nat -> (row / 2 < n)%nat) as Hn
    by (intros row Hrow; pose proof (half_bounds row); lia).
  assert (forall col, (col < m * 2)%nat -> (col / 2 < m)%nat) as Hm
    by (intros col Hcol; pose proof (half_bounds col); lia).
  split; [exact E1 |]. split.
  { intros r' Hne. apply deref_store_set_other. exact Hne. }
  split.
  { intros d row col Hd Hrow Hcol. rewrite deref_store_set by exact Hr.
    apply Hg1; auto. }
  split; [exact E2 |].
  intros d row col Hd Hrow Hcol. rewrite deref_store_set by exact Hr.
  rewrite Hg2, Hg1 by auto. reflexivity.
Qed.

Lemma maxpool_backward_in_place_witness :
  exists st1 st2,
    MaxPool_backward (mk_MaxPool (Some 0%nat)) (ex_image 1 1 1) [ones [1; 2; 2]%nat]
    = Ok (0%nat, st1) /\
    MaxPool_backward (mk_MaxPool (Some 0%nat)) (ex_image 1 1 1) st1 = Ok (0%nat, st2).
Proof.
  destruct (maxpool_backward_in_place (mk_MaxPool (Some 0%nat))
              (ex_image 1 1 1) (ex_image 1 1 1) [ones [1; 2; 2]%nat]
              0%nat 1%nat 1%nat 1%nat)
    as [st1 [st2 (E1 & _ & _ & E2 & _)]].
  - reflexivity.
  - simpl. lia.
  - reflexivity.
  - reflexivity.
  - reflexivity.
  - exists st1, st2. auto.
Defined.

(** C8. Once the evaluations at w + epsilon and w - epsilon of one weight
    element have completed, both layers' weight arrays have their shapes
    and every entry as before the perturbation. *)
Theorem gradient_check_restores_weights (x y : ndarray Qc) (l : which)
  (idx : list nat) (m m' : model) (approx : Qc) :
  check_perturb x y l idx m = Ok (approx, m') ->
  (shape (W (conv1 m')) = shape (W (conv1 m)) /\
   forall k, data (W (conv1 m')) k = data (W (conv1 m)) k) /\
  (shape (W (conv2 m')) = shape (W (conv2 m)) /\
   forall k, data (W (conv2 m')) k = data (W (conv2 m)) k).
Proof. intro E. exact (check_perturb_kept x y l idx m m' approx E). Qed.

Lemma gradient_check_restores_weights_witness :
  match check_perturb (ex_image 1 4 4) (ex_image 1 1 1) Conv1 [0; 0; 0; 0]%nat ex_model with
  | Ok (_, m') =>
      (shape (W (conv1 m')) = shape (W (conv1 ex_model)) /\
       forall k, data (W (conv1 m')) k = data (W (conv1 ex_model)) k) /\
      (shape (W (conv2 m')) = shape (W (conv2 ex_model)) /\
       forall k, data (W (conv2 m')) k = data (W (conv2 ex_model)) k)
  | Raise _ => False
  end.
Proof.
  destruct (check_perturb (ex_image 1 4 4) (ex_image 1 1 1) Conv1 [0; 0; 0; 0]%nat ex_model)
    as [[approx m'] | e] eqn:E.
  - exact (gradient_check_restores_weights (ex_image 1 4 4) (ex_image 1 1 1) Conv1
             [0; 0; 0; 0]%nat ex_model m' approx E).
  - assert (is_ok (check_perturb (ex_image 1 4 4) (ex_image 1 1 1) Conv1
                     [0; 0; 0; 0]%nat ex_model) = true) as Hok
      by (vm_compute; reflexivity).
    rewrite E in Hok. discriminate Hok.
Defined.

(** C9, as amended. With no cache, [backward] of the convolution layer and
    of the max-pool layer fail with Python's AttributeError (reading
    [.shape] of [None]); [ReLU.backward] fails with a TypeError, and
    [l2_loss.backward] returns [None] without raising. *)
Theorem backward_before_forward_raises (L : convLayer) (delta : ndarray Qc)
  (C H Wd : nat) (mp : MaxPool) (d : ndarray Qc) (st : store)
  (y : option (ndarray Qc)) :
  conv_cache L = None ->
  shape delta = [C; H; Wd] ->
  pool_cache mp = None ->
  convLayer_backward L delta = Raise AttributeError /\
  MaxPool_backward mp d st = Raise AttributeError /\
  ReLU_backward (mk_ReLU None) y = Raise TypeError /\
  l2_loss_backward (mk_l2_loss None) = None.
Proof.
  intros HL Hdelta Hmp. split; [| split; [| split]].
  - unfold convLayer_backward, conv_backward_loop. rewrite Hdelta, HL. reflexivity.
  - unfold MaxPool_backward. rewrite Hmp. reflexivity.
  - reflexivity.
  - reflexivity.
Qed.

Lemma backward_before_forward_raises_witness :
  convLayer_backward (ex_conv 2 1 1 1 0) (ones [1; 2; 2]%nat) = Raise AttributeError /\
  MaxPool_backward MaxPool_init (ones [1; 1; 1]%nat) [] = Raise AttributeError /\
  ReLU_backward (mk_ReLU None) None = Raise TypeError /\
  l2_loss_backward (mk_l2_loss None) = None.
Proof.
  apply (backward_before_forward_raises (ex_conv 2 1 1 1 0) (ones [1; 2; 2]%nat)
           1 2 2 MaxPool_init (ones [1; 1; 1]%nat) [] None).
  - reflexivity.
  - reflexivity.
  - reflexivity.
Defined.

(** C9 fails as stated: what is raised is an AttributeError, not a
    StateError. *)
Lemma backward_before_forward_not_StateError :
  convLayer_backward (ex_conv 2 1 1 1 0) (ones [1; 2; 2]%nat) = Raise AttributeError /\
  raises (convLayer_backward (ex_conv 2 1 1 1 0) (ones [1; 2; 2]%nat)) "StateError" = false /\
  MaxPool_backward MaxPool_init (ones [1; 1; 1]%nat) [] = Raise AttributeError /\
  raises (MaxPool_backward MaxPool_init (ones [1; 1; 1]%nat) []) "StateError" = false.
Proof. repeat split; reflexivity. Qed.

(** * Further properties of the code *)

(** ** Shapes, bounds and signs *)

(** ** Arrays of any rank: equal shapes *)

Lemma bshape_rev_refl (s : list nat) : bshape_rev s s = Some s.
Proof.
  induction s as [| n s IH]; [reflexivity |].
  simpl. rewrite bdim_refl, IH. reflexivity.
Qed.

Lemma broadcast_shapes_refl (s : list nat) : broadcast_shapes s s = Some s.
Proof.
  unfold broadcast_shapes. rewrite bshape_rev_refl. simpl.
  rewrite rev_involutive. reflexivity.
Qed.

Lemma in_bounds_cons (n i : nat) (s idx : list nat) :
  in_bounds (n :: s) (i :: idx) = true <-> (i < n)%nat /\ in_bounds s idx = true.
Proof.
  unfold in_bounds. cbn [List.length combine forallb fst snd Nat.eqb].
  rewrite !andb_true_iff, Nat.ltb_lt. tauto.
Qed.

Lemma in_bounds_nil_l (idx : list nat) : in_bounds [] idx = true <-> idx = [].
Proof. destruct idx; unfold in_bounds; simpl; split; congruence. Qed.

Lemma in_bounds_length (s idx : list nat) :
  in_bounds s idx = true -> List.length idx = List.length s.
Proof.
  unfold in_bounds. rewrite andb_true_iff, Nat.eqb_eq. tauto.
Qed.

Lemma pin_in_bounds (s idx : list nat) : in_bounds s idx = true -> pin s idx = idx.
Proof.
  revert idx. induction s as [| n s IH]; intros idx H.
  - apply in_bounds_nil_l in H. subst. reflexivity.
  - destruct idx as [| i idx]; [discriminate H |].
    apply in_bounds_cons in H. destruct H as [Hi H].
    simpl. rewrite (pin1 _ _ Hi), (IH idx H). reflexivity.
Qed.

Lemma bindex_in_bounds (s idx : list nat) : in_bounds s idx = true -> bindex s idx = idx.
Proof.
  intro H. unfold bindex. rewrite (in_bounds_length s idx H), Nat.sub_diag.
  simpl. apply pin_in_bounds. exact H.
Qed.

(** ** Order on the scalars *)

Lemma Qcltb_lt (a b : Qc) : Qcltb a b = true <-> a < b.
Proof.
  unfold Qcltb. rewrite negb_true_iff. split.
  - intro E. destruct (Qclt_le_dec a b) as [Hlt | Hle]; [exact Hlt |].
    apply Qcleb_le in Hle. unfold Qcleb in Hle. congruence.
  - intro Hlt. destruct (Qle_bool b a) eqn:E; [| reflexivity].
    apply Qle_bool_iff in E. exfalso. exact (Qclt_not_le _ _ Hlt E).
Qed.

Lemma Qcmax0_nonneg (v : Qc) : 0 <= Qcmax v 0.
Proof. apply Qcmax_ub_r. Qed.

Lemma Qcmax0_of_nonneg (v : Qc) : 0 <= v -> Qcmax v 0 = v.
Proof.
  intro H. unfold Qcmax. destruct (Qcleb v 0) eqn:E; [| reflexivity].
  apply Qcleb_le in E. apply Qcle_antisym; assumption.
Qed.

Lemma Qcmax0_of_nonpos (v : Qc) : v <= 0 -> Qcmax v 0 = 0.
Proof.
  intro H. unfold Qcmax. apply Qcleb_le in H. rewrite H. reflexivity.
Qed.

Lemma Qcmax0_pos_iff (v : Qc) : 0 < Qcmax v 0 <-> 0 < v.
Proof.
  destruct (Qclt_le_dec 0 v) as [Hpos | Hneg].
  - rewrite Qcmax0_of_nonneg by (apply Qclt_le_weak; exact Hpos). tauto.
  - rewrite Qcmax0_of_nonpos by exact Hneg. split; intro H.
    + exfalso. exact (Qclt_not_le _ _ H (Qcle_refl 0)).
    + exfalso. exact (Qclt_not_le _ _ H Hneg).
Qed.

Lemma Qc_square_nonneg (v : Qc) : 0 <= v * v.
Proof.
  destruct (Qclt_le_dec v 0) as [Hneg | Hpos].
  - replace (v * v) with ((- v) * (- v)) by ring.
    assert (0 <= - v) as H.
    { replace 0 with (- 0) by ring. apply Qcopp_le_compat, Qclt_le_weak, Hneg. }
    replace 0 with (0 * - v) at 1 by ring. apply Qcmult_le_compat_r; exact H.
  - replace 0 with (0 * v) at 1 by ring. apply Qcmult_le_compat_r; exact Hpos.
Qed.

Lemma Qc_mult_nonneg (a b : Qc) : 0 <= a -> 0 <= b -> 0 <= a * b.
Proof.
  intros Ha Hb. replace 0 with (0 * b) at 1 by ring.
  apply Qcmult_le_compat_r; assumption.
Qed.

Lemma half_nonneg : 0 <= half.
Proof. unfold Qcle. vm_compute. discriminate. Qed.

Lemma inv784_nonneg : 0 <= / c784.
Proof. unfold Qcle. vm_compute. discriminate. Qed.

Lemma sum_over_nonneg {I : Type} (l : list I) (f : I -> Qc) :
  (forall i, In i l -> 0 <= f i) -> 0 <= sum_over l f.
Proof.
  induction l as [| a l IH]; intro H.
  - rewrite sum_over_nil. apply Qcle_refl.
  - rewrite sum_over_cons. replace 0 with (0 + 0) at 1 by ring.
    apply Qcplus_le_compat.
    + apply H. left. reflexivity.
    + apply IH. intros i Hi. apply H. right. exact Hi.
Qed.

Lemma sum_all_nonneg (s : list nat) (f : list nat -> Qc) :
  (forall idx, 0 <= f idx) -> 0 <= sum_all s f.
Proof.
  revert f. induction s as [| n s IH]; intros f H; simpl.
  - apply H.
  - rewrite sum_range_over. apply sum_over_nonneg. intros i _.
    apply IH. intro idx. apply H.
Qed.

Lemma sum_all_ext (s : list nat) (f g : list nat -> Qc) :
  (forall idx, in_bounds s idx = true -> f idx = g idx) ->
  sum_all s f = sum_all s g.
Proof.
  revert f g. induction s as [| n s IH]; intros f g H; simpl.
  - apply H. reflexivity.
  - apply sum_range_ext. intros i Hi. apply IH. intros idx Hidx.
    apply H. apply in_bounds_cons. split; assumption.
Qed.

Lemma sum_all_zero (s : list nat) : sum_all s (fun _ => 0) = 0.
Proof.
  induction s as [| n s IH]; simpl; [reflexivity |].
  rewrite sum_range_over. apply sum_over_zero. intros i _. exact IH.
Qed.

(** ** ReLU *)

(** X1. [ReLU.__call__] keeps the shape, returns entries that are never
    negative, keeps every non-negative entry, sends every non-positive
    entry to 0, stores its output as the cache, and applied to its own
    output changes nothing. *)
Theorem ReLU_forward_spec (self : ReLU) (x : ndarray Qc) :
  let y := fst (ReLU_call self x) in
  shape y = shape x /\
  relu_cache (snd (ReLU_call self x)) = Some y /\
  (forall idx, 0 <= data y idx) /\
  (forall idx, 0 <= data x idx -> data y idx = data x idx) /\
  (forall idx, data x idx <= 0 -> data y idx = 0) /\
  (forall idx, data (fst (ReLU_call (snd (ReLU_call self x)) y)) idx = data y idx).
Proof.
  cbn. repeat split.
  - intro idx. apply Qcmax0_nonneg.
  - intros idx H. apply Qcmax0_of_nonneg. exact H.
  - intros idx H. apply Qcmax0_of_nonpos. exact H.
  - intro idx. apply Qcmax0_of_nonneg, Qcmax0_nonneg.
Qed.

Lemma ReLU_backward_ok (c y : ndarray Qc) :
  shape y = shape c ->
  exists g,
    ReLU_backward (mk_ReLU (Some c)) (Some y) = Ok g /\
    shape g = shape c /\
    forall idx, in_bounds (shape c) idx = true ->
      data g idx = (if Qcltb 0 (data c idx) then 1 else 0) * data y idx.
Proof.
  intro Hs. cbn [ReLU_backward relu_cache]. unfold map2_nd.
  cbn [map_nd shape]. rewrite Hs, broadcast_shapes_refl.
  eexists. split; [reflexivity |]. split; [reflexivity |].
  intros idx Hidx. cbn [data map_nd]. rewrite (bindex_in_bounds _ _ Hidx).
  reflexivity.
Qed.

(** X2. After [ReLU.__call__] on [x], [backward] on an upstream gradient
    of the same shape returns an array of that shape which holds the
    upstream entry wherever the input was strictly positive and 0 wherever
    it was zero or negative. *)
Theorem ReLU_backward_gate (self : ReLU) (x y : ndarray Qc) :
  shape y = shape x ->
  exists g,
    ReLU_backward (snd (ReLU_call self x)) (Some y) = Ok g /\
    shape g = shape x /\
    forall idx, in_bounds (shape x) idx = true ->
      (0 < data x idx -> data g idx = data y idx) /\
      (data x idx <= 0 -> data g idx = 0).
Proof.
  intro Hs. destruct (ReLU_backward_ok (np_maximum0 x) y Hs) as [g (E & Hsg & Hg)].
  exists g. split; [exact E |]. split; [exact Hsg |].
  intros idx Hidx. rewrite (Hg idx Hidx).
  change (data (np_maximum0 x) idx) with (Qcmax (data x idx) 0).
  split; intro H.
  - rewrite (proj2 (Qcltb_lt _ _) (proj2 (Qcmax0_pos_iff _) H)). ring.
  - destruct (Qcltb 0 (Qcmax (data x idx) 0)) eqn:E0; [| ring].
    apply Qcltb_lt in E0. apply (proj1 (Qcmax0_pos_iff _)) in E0.
    exfalso. exact (Qclt_not_le _ _ E0 H).
Qed.

Lemma ReLU_backward_gate_witness :
  exists g,
    ReLU_backward (snd (ReLU_call (mk_ReLU None) (ex_image 1 2 2)))
      (Some (ones [1; 2; 2]%nat)) = Ok g /\
    shape g = shape (ex_image 1 2 2).
Proof.
  destruct (ReLU_backward_gate (mk_ReLU None) (ex_image 1 2 2) (ones [1; 2; 2]%nat) eq_refl)
    as [g (E & Hs & _)].
  exists g. auto.
Defined.

(** ** The loss *)

Lemma l2_loss_call_ok (self : l2_loss) (x y : ndarray Qc) :
  shape y = shape x ->
  exists cost st g,
    l2_loss_call self x y = Ok (cost, st) /\
    0 <= cost /\
    ((forall idx, in_bounds (shape x) idx = true -> data x idx = data y idx) ->
     cost = 0) /\
    l2_loss_backward st = Some g /\
    shape g = shape x /\
    forall idx, in_bounds (shape x) idx = true ->
      data g idx = (data x idx - data y idx) / c784.
Proof.
  intro Hs. unfold l2_loss_call, map2_nd. rewrite Hs, broadcast_shapes_refl.
  cbn [bind]. eexists. eexists. eexists. split; [reflexivity |].
  unfold np_sum, l2_loss_backward, map_nd. cbn [l2_cache shape data].
  split; [| split; [| split; [reflexivity | split; [reflexivity |]]]].
  - unfold Qcdiv. apply Qc_mult_nonneg; [| apply inv784_nonneg].
    apply sum_all_nonneg. intro idx.
    apply Qc_mult_nonneg; [apply half_nonneg | apply Qc_square_nonneg].
  - intro Heq. rewrite (sum_all_ext _ _ (fun _ => 0)).
    + rewrite sum_all_zero. unfold Qcdiv. ring.
    + intros idx Hidx. rewrite (bindex_in_bounds _ _ Hidx), (Heq idx Hidx). ring.
  - intros idx Hidx. cbn [data]. rewrite (bindex_in_bounds _ _ Hidx). reflexivity.
Qed.

(** X3. On a prediction and a target of the same shape [l2_loss.__call__]
    returns a cost that is never negative and is 0 when the two arrays
    agree; it caches an array of that shape whose entries are
    (x - y) / 784, and [backward] hands out that cache. *)
Theorem l2_loss_spec (self : l2_loss) (x y : ndarray Qc) :
  shape y = shape x ->
  exists cost st g,
    l2_loss_call self x y = Ok (cost, st) /\
    0 <= cost /\
    ((forall idx, in_bounds (shape x) idx = true -> data x idx = data y idx) ->
     cost = 0) /\
    l2_loss_backward st = Some g /\
    shape g = shape x /\
    forall idx, in_bounds (shape x) idx = true ->
      data g idx = (data x idx - data y idx) / c784.
Proof. exact (l2_loss_call_ok self x y). Qed.

Lemma l2_loss_spec_witness :
  exists cost st g,
    l2_loss_call (mk_l2_loss None) (ex_image 1 2 2) (ones [1; 2; 2]%nat) = Ok (cost, st) /\
    0 <= cost /\
    l2_loss_backward st = Some g /\
    shape g = shape (ex_image 1 2 2).
Proof.
  destruct (l2_loss_spec (mk_l2_loss None) (ex_image 1 2 2) (ones [1; 2; 2]%nat) eq_refl)
    as [cost [st [g (E & Hc & _ & Hb & Hs & _)]]].
  exists cost, st, g. auto.
Defined.

(** ** The convolution layer: edges of the parameter space *)

(** X4. With padding p >= 1 (on an input with H <= W that the kernel
    fits), [backward] after
    [__call__] returns an array of the input's shape: the interior of
    the accumulator [dX], entry (d, r, q) being [dX[d, r+p, q+p]], the
    sum of the contributions of all windows covering that place. The
    cache and the weights stay as they are. *)
Theorem conv_backward_pad_interior (L : convLayer) (C D k s p : nat)
  (x out delta : ndarray Qc) (H Wd : nat) (L1 : convLayer) :
  conv_wf L C D k s p ->
  (1 <= C)%nat ->
  (1 <= p)%nat ->
  shape x = [D; H; Wd] ->
  (H <= Wd)%nat ->
  (k <= H + 2 * p)%nat ->
  convLayer_call L x = Ok (out, L1) ->
  shape delta = shape out ->
  exists ret L2,
    convLayer_backward L1 delta = Ok (ret, L2) /\
    shape ret = shape x /\
    conv_cache L2 = conv_cache L1 /\
    W L2 = W L /\
    forall d r q, (d < D)%nat ->
      data ret [d; r; q]
      = dX_sum (W L) delta C k s (out_dim H k s p) (out_dim H k s p)
          d (p + r) (p + q).
Proof.
  intros Hwf HC1 Hp1 Hx HW Hfit Ecall Hdelta.
  destruct (convLayer_backward_spec L C D k s p x out delta H Wd L1
              Hwf HC1 Hx HW Hfit Ecall Hdelta)
    as [dX [dW [ret (_ & E2 & E3 & HsX & _ & Hs & HdX & _)]]].
  destruct (crop_spec dX D (H + 2 * p) (Wd + 2 * p) p HsX) as [ret' (E3' & _ & Hret)].
  rewrite E3 in E3'. inversion E3'; subst ret'. clear E3'.
  exists ret. eexists. split; [exact E2 |].
  destruct (Nat.eqb_spec p 0) as [-> | _]; [lia |].
  split; [congruence |]. split; [reflexivity |]. split; [reflexivity |].
  intros d r q Hd. rewrite Hret.
  replace (Nat.min (H + 2 * p) p) with p by lia.
  replace (Nat.min (Wd + 2 * p) p) with p by lia.
  apply HdX. exact Hd.
Qed.

Lemma conv_backward_pad_interior_witness :
  match convLayer_call (ex_conv 2 1 1 1 1) (ex_image 1 2 2) with
  | Ok (out, L1) =>
      exists ret L2,
        convLayer_backward L1 (ones [1; 3; 3]%nat) = Ok (ret, L2) /\
        shape ret = shape (ex_image 1 2 2)
  | Raise _ => False
  end.
Proof.
  destruct (convLayer_call (ex_conv 2 1 1 1 1) (ex_image 1 2 2))
    as [[out L1] | e] eqn:E.
  - destruct (conv_backward_pad_interior (ex_conv 2 1 1 1 1) 1 1 2 1 1
                (ex_image 1 2 2) out (ones [1; 3; 3]%nat) 2 2 L1)
      as [ret [L2 (E2 & Hs & _)]].
    + apply ex_conv_wf. lia.
    + lia.
    + lia.
    + reflexivity.
    + lia.
    + lia.
    + exact E.
    + assert (option_map (@shape Qc)
                (match convLayer_call (ex_conv 2 1 1 1 1) (ex_image 1 2 2) with
                 | Ok (o, _) => Some o | Raise _ => None end)
              = Some [1; 3; 3]%nat) as Hso by (vm_compute; reflexivity).
      rewrite E in Hso. cbn in Hso. inversion Hso. reflexivity.
    + exists ret, L2. auto.
  - assert (is_ok (convLayer_call (ex_conv 2 1 1 1 1) (ex_image 1 2 2)) = true) as Hok
      by (vm_compute; reflexivity).
    rewrite E in Hok. discriminate Hok.
Defined.

(** X5. A kernel that exceeds the padded height by more than the stride
    makes the computed output size negative, and [__call__] raises
    ValueError when it allocates the output. *)
Theorem conv_kernel_too_large_raises (L : convLayer) (C D k s p : nat)
  (x : ndarray Qc) (H Wd : nat) :
  conv_wf L C D k s p ->
  shape x = [D; H; Wd] ->
  (H + 2 * p + s < k)%nat ->
  convLayer_call L x = Raise ValueError.
Proof.
  intros (HWs & Hk & HC & Hs & Hpad & Hs1) Hx Hbig.
  destruct (np_pad_ok x D H Wd p Hx) as [xp (Epad & _)].
  unfold convLayer_call. rewrite Hx, Hpad, Epad. cbn [bind].
  rewrite Hs. destruct (Z.eqb_spec (Z.of_nat s) 0); [lia |].
  unfold output_size, np_zeros. rewrite Hk, Hs, Hpad, HC. cbn [forallb].
  assert ((Z.of_nat H - Z.of_nat k + 2 * Z.of_nat p) / Z.of_nat s + 1 < 0)%Z as Hneg.
  { assert ((Z.of_nat H - Z.of_nat k + 2 * Z.of_nat p) / Z.of_nat s < -1)%Z; [| lia].
    apply Z.div_lt_upper_bound; lia. }
  destruct (Z.leb_spec 0 ((Z.of_nat H - Z.of_nat k + 2 * Z.of_nat p) / Z.of_nat s + 1));
    [lia |].
  rewrite andb_false_r. reflexivity.
Qed.

Lemma conv_kernel_too_large_raises_witness :
  convLayer_call (ex_conv 5 1 1 1 0) (ex_image 1 3 3) = Raise ValueError.
Proof.
  apply (conv_kernel_too_large_raises (ex_conv 5 1 1 1 0) 1 1 5 1 0 (ex_image 1 3 3) 3 3).
  - apply ex_conv_wf. lia.
  - reflexivity.
  - lia.
Defined.

(** X6. A kernel that exceeds the padded height by at most the stride
    gives output size 0: [__call__] raises nothing and returns an output
    with no rows and no columns, caching the padded input. *)
Theorem conv_kernel_slightly_too_large_empty (L : convLayer) (C D k s p : nat)
  (x : ndarray Qc) (H Wd : nat) :
  conv_wf L C D k s p ->
  shape x = [D; H; Wd] ->
  (H + 2 * p < k)%nat ->
  (k <= H + 2 * p + s)%nat ->
  exists out L1 xp,
    convLayer_call L x = Ok (out, L1) /\
    shape out = [C; 0; 0]%nat /\
    conv_cache L1 = Some xp /\
    shape xp = [D; H + 2 * p; Wd + 2 * p]%nat.
Proof.
  intros (HWs & Hk & HC & Hs & Hpad & Hs1) Hx Hbig Hsmall.
  destruct (np_pad_ok x D H Wd p Hx) as [xp (Epad & Hxp & _)].
  unfold convLayer_call. rewrite Hx, Hpad, Epad. cbn [bind].
  rewrite Hs. destruct (Z.eqb_spec (Z.of_nat s) 0); [lia |].
  unfold output_size, np_zeros. rewrite Hk, Hs, Hpad, HC. cbn [forallb].
  assert ((Z.of_nat H - Z.of_nat k + 2 * Z.of_nat p) / Z.of_nat s = -1)%Z as Hm1.
  { symmetry. apply (Z.div_unique _ _ (-1)
      (Z.of_nat H - Z.of_nat k + 2 * Z.of_nat p + Z.of_nat s)); lia. }
  rewrite Hm1. cbn [Z.add Z.opp Z.pos_sub Z.leb Z.compare].
  destruct (Z.leb_spec 0 (Z.of_nat C)); [| lia].
  cbn [andb bind map shape nth Z.to_nat range2 range seq flat_map for_loop].
  eexists. eexists. exists xp. split; [reflexivity |].
  rewrite Nat2Z.id. auto.
Qed.

Lemma conv_kernel_slightly_too_large_empty_witness :
  exists out L1 xp,
    convLayer_call (ex_conv 4 1 1 1 0) (ex_image 1 3 3) = Ok (out, L1) /\
    shape out = [1; 0; 0]%nat /\
    conv_cache L1 = Some xp /\
    shape xp = [1; 3 + 2 * 0; 3 + 2 * 0]%nat.
Proof.
  apply (conv_kernel_slightly_too_large_empty (ex_conv 4 1 1 1 0) 1 1 4 1 0
           (ex_image 1 3 3) 3 3).
  - apply ex_conv_wf. lia.
  - reflexivity.
  - lia.
  - lia.
Defined.

(** ** Sums scaled by a constant *)

Lemma sum_over_scale_r {I : Type} (l : list I) (f : I -> Qc) (a : Qc) :
  sum_over l (fun i => f i * a) = sum_over l f * a.
Proof.
  induction l as [| b l IH]; [rewrite !sum_over_nil; ring |].
  rewrite !sum_over_cons, IH. ring.
Qed.

Lemma sum_range_scale_r (n : nat) (f : nat -> Qc) (a : Qc) :
  sum_range n (fun i => f i * a) = sum_range n f * a.
Proof. rewrite !sum_range_over. apply sum_over_scale_r. Qed.

(** ** The stacked model *)

Lemma out_dim_same (H : nat) : (1 <= H)%nat -> out_dim H 3 1 1 = H.
Proof. intro HH. unfold out_dim. rewrite Nat.div_1_r. lia. Qed.

Lemma out_dim_half (H : nat) : (1 <= H)%nat -> out_dim H 3 2 1 = ((H + 1) / 2)%nat.
Proof.
  intro HH. unfold out_dim.
  replace (H + 1)%nat with (H + 2 * 1 - 3 + 1 * 2)%nat by lia.
  rewrite Nat.div_add by lia. reflexivity.
Qed.

(** What [model_forward] does, layer by layer, on a square image of side
    [H] when the second convolution's output of side [n2] splits into
    whole 2x2 windows. *)
Lemma model_forward_steps (x : ndarray Qc) (m : model) (H q : nat) :
  stack_wf m ->
  shape x = [1; H; H]%nat ->
  (1 <= H)%nat ->
  ((H + 1) / 2 = q * 2)%nat ->
  exists out1 c1 out2 c2 out3 cache,
    convLayer_call (conv1 m) x = Ok (out1, c1) /\
    shape out1 = [3; H; H]%nat /\
    convLayer_call (conv2 m) (np_maximum0 out1) = Ok (out2, c2) /\
    shape out2 = [1; q * 2; q * 2]%nat /\
    shape out3 = [1; q; q]%nat /\
    shape cache = [1; q * 2; q * 2]%nat /\
    model_forward x m
    = Ok (np_maximum0 out3,
          mk_model c1 c2 (mk_MaxPool (Some (List.length (heap m))))
            (mk_ReLU (Some (np_maximum0 out1))) (mk_ReLU (Some (np_maximum0 out3)))
            (l2 m) (heap m ++ [cache])).
Proof.
  intros [Hwf1 Hwf2] Hx HH Hq.
  destruct (convLayer_call_spec (conv1 m) 3 1 3 1 1 x H H Hwf1 Hx (le_n H) ltac:(lia))
    as [out1 [xp1 (E1 & Hs1 & _)]].
  rewrite (out_dim_same H HH) in Hs1.
  assert (shape (np_maximum0 out1) = [3; H; H]%nat) as Hr1 by exact Hs1.
  destruct (convLayer_call_spec (conv2 m) 1 3 3 2 1 (np_maximum0 out1) H H
              Hwf2 Hr1 (le_n H) ltac:(lia))
    as [out2 [xp2 (E2 & Hs2 & _)]].
  rewrite (out_dim_half H HH), Hq in Hs2.
  destruct (MaxPool_call_spec (maxpool m) out2 (heap m) 1 (q * 2) (q * 2) Hs2)
    as [out3 [cache (E3 & Hs3 & Hsc & _)]].
  { replace ((q * 2 + 1) / 2)%nat with q by (pose proof (half_up_bounds (q * 2)); lia).
    apply windows_full_even. }
  replace ((q * 2 + 1) / 2)%nat with q in Hs3
    by (pose proof (half_up_bounds (q * 2)); lia).
  eexists. eexists. eexists. eexists. exists out3, cache.
  split; [exact E1 |]. split; [exact Hs1 |]. split; [exact E2 |].
  split; [exact Hs2 |]. split; [exact Hs3 |]. split; [exact Hsc |].
  unfold model_forward. rewrite E1. cbn [bind ReLU_call]. rewrite E2. cbn [bind].
  rewrite E3. cbn [bind]. reflexivity.
Qed.

(** X10. On a square one-channel image of side H >= 1 for which
    ceil(H/2) = 2q is even (H = 28 gives q = 7), [model_forward] returns
    logits of shape (1, q, q) with no negative entry and leaves both
    weight arrays as they are. *)
Theorem model_forward_shape (x : ndarray Qc) (m : model) (H q : nat) :
  stack_wf m ->
  shape x = [1; H; H]%nat ->
  (1 <= H)%nat ->
  ((H + 1) / 2 = q * 2)%nat ->
  exists logits m',
    model_forward x m = Ok (logits, m') /\
    shape logits = [1; q; q]%nat /\
    (forall idx, 0 <= data logits idx) /\
    W (conv1 m') = W (conv1 m) /\
    W (conv2 m') = W (conv2 m).
Proof.
  intros Hwf Hx HH Hq.
  destruct (model_forward_steps x m H q Hwf Hx HH Hq)
    as [out1 [c1 [out2 [c2 [out3 [cache (E1 & _ & E2 & _ & Hs3 & _ & E)]]]]]].
  eexists. eexists. split; [exact E |]. split; [exact Hs3 |].
  split; [intro idx; apply Qcmax0_nonneg |].
  exact (model_forward_W _ _ _ _ E).
Qed.

Lemma ex_model_wf : stack_wf ex_model.
Proof. split; apply ex_conv_wf; lia. Qed.

Lemma model_forward_shape_witness :
  exists logits m',
    model_forward (ex_image 1 4 4) ex_model = Ok (logits, m') /\
    shape logits = [1; 1; 1]%nat /\
    (forall idx, 0 <= data logits idx) /\
    W (conv1 m') = W (conv1 ex_model) /\
    W (conv2 m') = W (conv2 ex_model).
Proof.
  apply (model_forward_shape (ex_image 1 4 4) ex_model 4 1).
  - exact ex_model_wf.
  - reflexivity.
  - lia.
  - reflexivity.
Defined.

(** X11. On a square one-channel image of side H >= 1 for which
    ceil(H/2) is odd (as for H = 5 or H = 6), the second convolution's
    output has an odd side, the max-pool layer meets a cut window, and
    [model_forward] raises ValueError. *)
Theorem model_forward_odd_raises (x : ndarray Qc) (m : model) (H : nat) :
  stack_wf m ->
  shape x = [1; H; H]%nat ->
  (1 <= H)%nat ->
  Nat.odd ((H + 1) / 2) = true ->
  model_forward x m = Raise ValueError.
Proof.
  intros [Hwf1 Hwf2] Hx HH Hodd.
  destruct (convLayer_call_spec (conv1 m) 3 1 3 1 1 x H H Hwf1 Hx (le_n H) ltac:(lia))
    as [out1 [xp1 (E1 & Hs1 & _)]].
  rewrite (out_dim_same H HH) in Hs1.
  assert (shape (np_maximum0 out1) = [3; H; H]%nat) as Hr1 by exact Hs1.
  destruct (convLayer_call_spec (conv2 m) 1 3 3 2 1 (np_maximum0 out1) H H
              Hwf2 Hr1 (le_n H) ltac:(lia))
    as [out2 [xp2 (E2 & Hs2 & _)]].
  rewrite (out_dim_half H HH) in Hs2.
  unfold model_forward. rewrite E1. cbn [bind ReLU_call]. rewrite E2. cbn [bind].
  rewrite (MaxPool_call_partial (maxpool m) out2 (heap m) 1 _ _ Hs2); [reflexivity |].
  pose proof (half_up_bounds H).
  apply odd_has_partial_window; auto; lia.
Qed.

Lemma model_forward_odd_raises_witness :
  model_forward (ex_image 1 6 6) ex_model = Raise ValueError.
Proof.
  apply (model_forward_odd_raises (ex_image 1 6 6) ex_model 6).
  - exact ex_model_wf.
  - reflexivity.
  - lia.
  - reflexivity.
Defined.

(** X12. One full cycle of the notebook's stack. On a square one-channel
    image of side H >= 1 with ceil(H/2) = 2q and a target of shape
    (1, q, q), the forward pass and the loss return a cost that is never
    negative, and [model_backward] then returns and leaves in each
    convolution layer a [gradW] of the shape of its weights, the weights
    themselves unchanged. *)
Theorem model_cycle_shapes (x y : ndarray Qc) (m : model) (H q : nat) :
  stack_wf m ->
  shape x = [1; H; H]%nat ->
  (1 <= H)%nat ->
  ((H + 1) / 2 = q * 2)%nat ->
  shape y = [1; q; q]%nat ->
  exists cost m1 m2 g1 g2,
    cost_of x y m = Ok (cost, m1) /\
    0 <= cost /\
    model_backward m1 = Ok m2 /\
    gradW (conv1 m2) = Some g1 /\
    shape g1 = shape (W (conv1 m)) /\
    gradW (conv2 m2) = Some g2 /\
    shape g2 = shape (W (conv2 m)) /\
    W (conv1 m2) = W (conv1 m) /\
    W (conv2 m2) = W (conv2 m).
Proof.
  intros Hwf Hx HH Hq Hy. pose proof Hwf as [Hwf1 Hwf2].
  destruct (model_forward_steps x m H q Hwf Hx HH Hq)
    as [out1 [c1 [out2 [c2 [out3 [cache (E1 & Hs1 & E2 & Hs2 & Hs3 & Hsc & E)]]]]]].
  assert (shape (np_maximum0 out1) = [3; H; H]%nat) as Hr1 by exact Hs1.
  assert (shape (np_maximum0 out3) = [1; q; q]%nat) as Hr3 by exact Hs3.
  destruct (l2_loss_call_ok (l2 m) (np_maximum0 out3) y ltac:(congruence))
    as [cost [st [g0 (El & Hcost & _ & Eb & Hsg0 & _)]]].
  destruct (ReLU_backward_ok (np_maximum0 out3) g0 Hsg0) as [d1 (Er2 & Hsd1 & _)].
  rewrite Hr3 in Hsd1.
  destruct (MaxPool_backward_spec (mk_MaxPool (Some (List.length (heap m)))) d1
              (heap m ++ [cache]) (List.length (heap m)) 1 (q * 2) (q * 2) q q eq_refl)
    as [g (Ep & Hsg & _)].
  { rewrite length_app. simpl. lia. }
  { rewrite deref_alloc. exact Hsc. }
  { exact Hsd1. }
  { apply windows_full_even. }
  rewrite store_set_alloc in Ep.
  destruct (convLayer_backward_spec (conv2 m) 1 3 3 2 1 (np_maximum0 out1) out2 g H H c2
              Hwf2 (le_n 1) Hr1 (le_n H) ltac:(lia) E2 ltac:(congruence))
    as [dX2 [dW2 [ret2 (_ & Ec2 & _ & _ & HsW2 & Hsret2 & _)]]].
  cbn [Nat.eqb] in Hsret2.
  destruct (ReLU_backward_ok (np_maximum0 out1) ret2 ltac:(congruence))
    as [d3 (Er1 & Hsd3 & _)].
  destruct (convLayer_backward_spec (conv1 m) 3 1 3 1 1 x out1 d3 H H c1
              Hwf1 ltac:(lia) Hx (le_n H) ltac:(lia) E1 ltac:(congruence))
    as [dX1 [dW1 [ret1 (_ & Ec1 & _ & _ & HsW1 & _)]]].
  exists cost. eexists. eexists. exists dW1, dW2.
  split.
  { unfold cost_of. rewrite E. cbn [bind l2]. rewrite El. cbn [bind]. reflexivity. }
  split; [exact Hcost |].
  split.
  { unfold model_backward.
    cbn [with_l2 l2 rl2 rl1 maxpool heap conv1 conv2].
    rewrite Eb, Er2. cbn [bind]. rewrite Ep. cbn [bind].
    rewrite deref_alloc, Ec2. cbn [bind]. rewrite Er1. cbn [bind].
    rewrite Ec1. cbn [bind]. reflexivity. }
  cbn [conv1 conv2 gradW W].
  destruct Hwf1 as (HW1 & _). destruct Hwf2 as (HW2 & _).
  repeat split; congruence.
Qed.

Lemma model_cycle_shapes_witness :
  exists cost m1 m2 g1 g2,
    cost_of (ex_image 1 4 4) (ex_image 1 1 1) ex_model = Ok (cost, m1) /\
    0 <= cost /\
    model_backward m1 = Ok m2 /\
    gradW (conv1 m2) = Some g1 /\
    shape g1 = shape (W (conv1 ex_model)) /\
    gradW (conv2 m2) = Some g2 /\
    shape g2 = shape (W (conv2 ex_model)) /\
    W (conv1 m2) = W (conv1 ex_model) /\
    W (conv2 m2) = W (conv2 ex_model).
Proof.
  apply (model_cycle_shapes (ex_image 1 4 4) (ex_image 1 1 1) ex_model 4 1).
  - exact ex_model_wf.
  - reflexivity.
  - lia.
  - reflexivity.
  - reflexivity.
Defined.

(** ** The whole gradient check *)

(** X13. When the gradient check runs to its end (every forward and
    backward pass returned and every [assert] held), both layers' weight
    arrays have the shape and the entries they had before it started. *)
Theorem gradient_check_keeps_weights (x y : ndarray Qc) (m m' : model) :
  gradient_check x y m = Ok m' ->
  (shape (W (conv1 m')) = shape (W (conv1 m)) /\
   forall k, data (W (conv1 m')) k = data (W (conv1 m)) k) /\
  (shape (W (conv2 m')) = shape (W (conv2 m)) /\
   forall k, data (W (conv2 m')) k = data (W (conv2 m)) k).
Proof. intro E. exact (gradient_check_kept x y m m' E). Qed.

Lemma gradient_check_keeps_weights_witness :
  match gradient_check (ex_image 1 2 2) (ex_image 1 3 3) ex_tiny_model with
  | Ok m' =>
      (shape (W (conv1 m')) = shape (W (conv1 ex_tiny_model)) /\
       forall k, data (W (conv1 m')) k = data (W (conv1 ex_tiny_model)) k) /\
      (shape (W (conv2 m')) = shape (W (conv2 ex_tiny_model)) /\
       forall k, data (W (conv2 m')) k = data (W (conv2 ex_tiny_model)) k)
  | Raise _ => False
  end.
Proof.
  destruct (gradient_check (ex_image 1 2 2) (ex_image 1 3 3) ex_tiny_model)
    as [m' | e] eqn:E.
  - exact (gradient_check_keeps_weights (ex_image 1 2 2) (ex_image 1 3 3)
             ex_tiny_model m' E).
  - assert (is_ok (gradient_check (ex_image 1 2 2) (ex_image 1 3 3) ex_tiny_model)
            = true) as Hok by (vm_compute; reflexivity).
    rewrite E in Hok. discriminate Hok.
Defined.

(** ** The max-pool layer: what a cycle leaves behind *)

(** X14. [__call__] binds [self.cache] to a new array: the reference it
    stores is fresh, and every array that was in the store before (such
    as the gradient an earlier [backward] returned) is left as it was. *)
Theorem maxpool_forward_fresh_cache (self mp : MaxPool) (x out : ndarray Qc)
  (st st1 : store) (D H Wd : nat) :
  shape x = [D; H; Wd] ->
  MaxPool_call self x st = Ok (out, mp, st1) ->
  pool_cache mp = Some (List.length st) /\
  List.length st1 = S (List.length st) /\
  forall r, (r < List.length st)%nat -> deref st1 r = deref st r.
Proof.
  intros Hx E.
  destruct (MaxPool_call_inv self mp x out st st1 D H Wd Hx E)
    as (_ & -> & _ & cache & -> & _).
  split; [reflexivity |]. split.
  - rewrite length_app. simpl. lia.
  - intros r Hr. apply deref_alloc_old. exact Hr.
Qed.

Lemma maxpool_forward_fresh_cache_witness :
  match MaxPool_call (mk_MaxPool (Some 0%nat)) ex_tied [ones [1; 2; 2]%nat] with
  | Ok (out, mp, st1) =>
      pool_cache mp = Some 1%nat /\
      List.length st1 = 2%nat /\
      forall r, (r < 1)%nat -> deref st1 r = deref [ones [1; 2; 2]%nat] r
  | Raise _ => False
  end.
Proof.
  destruct (MaxPool_call (mk_MaxPool (Some 0%nat)) ex_tied [ones [1; 2; 2]%nat])
    as [[[out mp] st1] | e] eqn:E.
  - exact (maxpool_forward_fresh_cache (mk_MaxPool (Some 0%nat)) mp ex_tied out
             [ones [1; 2; 2]%nat] st1 1 2 2 eq_refl E).
  - assert (is_ok (MaxPool_call (mk_MaxPool (Some 0%nat)) ex_tied [ones [1; 2; 2]%nat])
            = true) as Hok by (vm_compute; reflexivity).
    rewrite E in Hok. discriminate Hok.
Defined.

(** The entries of the cache after [__call__] and [backward]. *)
Lemma maxpool_cycle_entries (self mp : MaxPool) (x out delta : ndarray Qc)
  (st st1 : store) (D H Wd : nat) :
  shape x = [D; H; Wd] ->
  MaxPool_call self x st = Ok (out, mp, st1) ->
  shape delta = shape out ->
  exists r st2,
    MaxPool_backward mp delta st1 = Ok (r, st2) /\
    forall d i j a b M,
      (d < D)%nat -> (i * 2 + 2 <= H)%nat -> (j * 2 + 2 <= Wd)%nat ->
      (a < 2)%nat -> (b < 2)%nat ->
      is_window_max x d i j M ->
      data (deref st2 r) [d; i * 2 + a; j * 2 + b]%nat
      = (if Qceqb (data x [d; i * 2 + a; j * 2 + b]%nat) M then 1 else 0)
        * data delta [d; i; j].
Proof.
  intros Hx Ecall Hdelta.
  destruct (MaxPool_call_inv self mp x out st st1 D H Wd Hx Ecall)
    as (Hfull & -> & Hso & cache & -> & Hsc & Hcache).
  rewrite Hso in Hdelta.
  destruct (MaxPool_backward_spec (mk_MaxPool (Some (List.length st))) delta
              (st ++ [cache]) (List.length st) D H Wd
              ((H + 1) / 2) ((Wd + 1) / 2) eq_refl)
    as [g (Eb & Hsg & Hg)]; try assumption.
  { rewrite length_app. simpl. lia. }
  { rewrite deref_alloc. exact Hsc. }
  rewrite deref_alloc in Hg. rewrite store_set_alloc in Eb.
  exists (List.length st), (st ++ [g]). rewrite deref_alloc.
  split; [exact Eb |].
  intros d i j a b M Hd Hi Hj Ha Hb HM.
  pose proof (half_up_bounds H) as BH. pose proof (half_up_bounds Wd) as BW.
  rewrite Hg by (rewrite ?half_of_window by assumption; lia).
  rewrite Hcache by lia. rewrite !half_of_window by assumption.
  rewrite (window_max_unique x d i j M _ HM (win_max_is_max x d i j)). reflexivity.
Qed.

(** X15. The tie policy of the pooling gradient. After [__call__] and
    [backward], in every 2x2 window each position that does not hold the
    window's maximum has gradient 0, and the gradient summed over the
    window is the window's [delta] entry times the number of positions
    holding the maximum: tied maxima each receive the whole entry, it is
    not split among them. *)
Theorem maxpool_backward_ties_duplicate (self mp : MaxPool) (x out delta : ndarray Qc)
  (st st1 : store) (D H Wd : nat) :
  shape x = [D; H; Wd] ->
  MaxPool_call self x st = Ok (out, mp, st1) ->
  shape delta = shape out ->
  exists r st2,
    MaxPool_backward mp delta st1 = Ok (r, st2) /\
    forall d i j M,
      (d < D)%nat -> (i * 2 + 2 <= H)%nat -> (j * 2 + 2 <= Wd)%nat ->
      is_window_max x d i j M ->
      (forall a b, (a < 2)%nat -> (b < 2)%nat ->
         data x [d; i * 2 + a; j * 2 + b]%nat <> M ->
         data (deref st2 r) [d; i * 2 + a; j * 2 + b]%nat = 0) /\
      sum_range 2 (fun a =>
        sum_range 2 (fun b => data (deref st2 r) [d; i * 2 + a; j * 2 + b]%nat))
      = sum_range 2 (fun a =>
          sum_range 2 (fun b =>
            if Qceqb (data x [d; i * 2 + a; j * 2 + b]%nat) M then 1 else 0))
        * data delta [d; i; j].
Proof.
  intros Hx Ecall Hdelta.
  destruct (maxpool_cycle_entries self mp x out delta st st1 D H Wd Hx Ecall Hdelta)
    as [r [st2 (Eb & Hval)]].
  exists r, st2. split; [exact Eb |].
  intros d i j M Hd Hi Hj HM. split.
  - intros a b Ha Hb Hne. rewrite (Hval d i j a b M) by assumption.
    destruct (Qceqb _ M) eqn:Eq; [| ring].
    apply Qceqb_eq in Eq. contradiction.
  - rewrite <- sum_range_scale_r. apply sum_range_ext; intros a Ha.
    rewrite <- sum_range_scale_r. apply sum_range_ext; intros b Hb.
    apply Hval; assumption.
Qed.

Lemma maxpool_backward_ties_duplicate_witness :
  match MaxPool_call MaxPool_init ex_tied [] with
  | Ok (out, mp, st1) =>
      exists r st2,
        MaxPool_backward mp (ex_image 1 1 1) st1 = Ok (r, st2) /\
        sum_range 2 (fun a =>
          sum_range 2 (fun b => data (deref st2 r) [0; 0 * 2 + a; 0 * 2 + b]%nat))
        = sum_range 2 (fun a =>
            sum_range 2 (fun b =>
              if Qceqb (data ex_tied [0; 0 * 2 + a; 0 * 2 + b]%nat) (QcofZ 7)
              then 1 else 0))
          * data (ex_image 1 1 1) [0; 0; 0]%nat
  | Raise _ => False
  end.
Proof.
  destruct (MaxPool_call MaxPool_init ex_tied []) as [[[out mp] st1] | e] eqn:E.
  - destruct (maxpool_backward_ties_duplicate MaxPool_init mp ex_tied out
                (ex_image 1 1 1) [] st1 1 2 2 eq_refl E)
      as [r [st2 (Eb & Hw)]].
    + assert (option_map (@shape Qc)
                (match MaxPool_call MaxPool_init ex_tied [] with
                 | Ok (o, _, _) => Some o | Raise _ => None end)
              = Some [1; 1; 1]%nat) as Hs by (vm_compute; reflexivity).
      rewrite E in Hs. cbn in Hs. inversion Hs as [Hs']. rewrite Hs'. reflexivity.
    + exists r, st2. split; [exact Eb |].
      apply (Hw 0%nat 0%nat 0%nat (QcofZ 7)); try lia.
      split.
      * intros a b Ha Hb. unfold Qcle.
        destruct a as [| [| a]], b as [| [| b]]; try lia; vm_compute; discriminate.
      * exists 0%nat, 1%nat. repeat split; try lia.
  - assert (is_ok (MaxPool_call MaxPool_init ex_tied []) = true) as Hok
      by (vm_compute; reflexivity).
    rewrite E in Hok. discriminate Hok.
Defined.

(** ** The convolution layer: channel mismatch *)

(** X16. When the input has a channel count that differs from the
    layer's, and neither count is 1, the product of the weights with the
    first window cannot be broadcast and [__call__] raises ValueError. *)
Theorem conv_channel_mismatch_raises (L : convLayer) (C D k s p : nat)
  (x : ndarray Qc) (Dx H Wd : nat) :
  conv_wf L C D k s p ->
  shape x = [Dx; H; Wd] ->
  Dx <> D -> Dx <> 1%nat -> D <> 1%nat ->
  (k <= H + 2 * p)%nat ->
  (k <= Wd + 2 * p)%nat ->
  convLayer_call L x = Raise ValueError.
Proof.
  intros Hwf Hx Hne Hx1 HD1 Hfit HfitW.
  pose proof Hwf as (HWs & Hk & HC & Hs & Hpad & Hs1).
  destruct (np_pad_ok x Dx H Wd p Hx) as [xp (Epad & Hxp & _)].
  unfold convLayer_call. rewrite Hx, Hpad, Epad. cbn [bind].
  rewrite Hs. destruct (Z.eqb_spec (Z.of_nat s) 0); [lia |].
  rewrite <- Hs, (output_size_nat L C D k s p H Hwf Hfit), HC.
  unfold np_zeros. cbn [forallb map].
  destruct (Z.leb_spec 0 (Z.of_nat C)); [| lia].
  destruct (Z.leb_spec 0 (Z.of_nat (out_dim H k s p))); [| lia].
  cbn [andb bind shape nth]. rewrite !Nat2Z.id.
  unfold out_dim. rewrite Nat.add_1_r.
  unfold range2, range. cbn [seq flat_map map app for_loop].
  unfold conv_forward_body at 1, getitem_box. rewrite Hxp, Hs, Hk.
  cbn [Z.of_nat Z.mul]. change 0%Z with (Z.of_nat 0).
  rewrite !slice_inside by lia.
  cbn [bind]. unfold map2_nd. rewrite HWs. cbn [shape].
  unfold broadcast_shapes. cbn [rev app bshape_rev]. rewrite !bdim_refl.
  assert (bdim D Dx = None) as Hb.
  { unfold bdim. destruct (Nat.eqb_spec D Dx); [congruence |].
    destruct (Nat.eqb_spec D 1); [congruence |].
    destruct (Nat.eqb_spec Dx 1); [congruence | reflexivity]. }
  rewrite Hb. reflexivity.
Qed.

Lemma conv_channel_mismatch_raises_witness :
  convLayer_call (ex_conv 2 3 1 1 0) (ex_image 2 3 3) = Raise ValueError.
Proof.
  apply (conv_channel_mismatch_raises (ex_conv 2 3 1 1 0) 1 3 2 1 0
           (ex_image 2 3 3) 2 3 3).
  - apply ex_conv_wf. lia.
  - reflexivity.
  - lia.
  - lia.
  - lia.
  - lia.
  - lia.
Defined.

(** ** The max-pool layer: the mask on whole windows *)

(** X17. On an input of even height and width (every window whole),
    [__call__] returns the window maxima and leaves in the cache,
    at every input element, 1 when the element equals the maximum of its
    2x2 window and 0 otherwise; all tied positions are marked, and when
    the four values of a window are pairwise distinct exactly one position
    of the window is marked. *)
Theorem maxpool_forward_mask (self : MaxPool) (x : ndarray Qc) (st : store)
  (D n m : nat) :
  shape x = [D; n * 2; m * 2]%nat ->
  exists out r st',
    MaxPool_call self x st = Ok (out, mk_MaxPool (Some r), st') /\
    shape out = [D; n; m] /\
    shape (deref st' r) = shape x /\
    (forall d i j, (d < D)%nat -> (i < n)%nat -> (j < m)%nat ->
       is_window_max x d i j (data out [d; i; j])) /\
    (forall d i j a b M, (d < D)%nat -> (i < n)%nat -> (j < m)%nat ->
       (a < 2)%nat -> (b < 2)%nat ->
       is_window_max x d i j M ->
       (data x [d; i * 2 + a; j * 2 + b]%nat = M ->
        data (deref st' r) [d; i * 2 + a; j * 2 + b]%nat = 1) /\
       (data x [d; i * 2 + a; j * 2 + b]%nat <> M ->
        data (deref st' r) [d; i * 2 + a; j * 2 + b]%nat = 0)) /\
    (forall d i j, (d < D)%nat -> (i < n)%nat -> (j < m)%nat ->
       (forall a b a' b', (a < 2)%nat -> (b < 2)%nat -> (a' < 2)%nat -> (b' < 2)%nat ->
          data x [d; i * 2 + a; j * 2 + b]%nat = data x [d; i * 2 + a'; j * 2 + b']%nat ->
          a = a' /\ b = b') ->
       exists a b, (a < 2)%nat /\ (b < 2)%nat /\
         forall a' b', (a' < 2)%nat -> (b' < 2)%nat ->
           (data (deref st' r) [d; i * 2 + a'; j * 2 + b']%nat = 1 <-> a' = a /\ b' = b)).
Proof.
  intro Hx.
  destruct (MaxPool_call_spec self x st D (n * 2) (m * 2) Hx) as
    [out [cache (E & Hso & Hsc & Hout & Hcache)]].
  { replace ((n * 2 + 1) / 2)%nat with n by (pose proof (half_up_bounds (n * 2)); lia).
    replace ((m * 2 + 1) / 2)%nat with m by (pose proof (half_up_bounds (m * 2)); lia).
    apply windows_full_even. }
  replace ((n * 2 + 1) / 2)%nat with n in *
    by (pose proof (half_up_bounds (n * 2)); lia).
  replace ((m * 2 + 1) / 2)%nat with m in *
    by (pose proof (half_up_bounds (m * 2)); lia).
  exists out, (List.length st), (st ++ [cache]). rewrite deref_alloc.
  assert (forall d i j a b M, (d < D)%nat -> (i < n)%nat -> (j < m)%nat ->
            (a < 2)%nat -> (b < 2)%nat -> is_window_max x d i j M ->
            data cache [d; i * 2 + a; j * 2 + b]%nat
            = if Qceqb (data x [d; i * 2 + a; j * 2 + b]%nat) M then 1 else 0) as Hmask.
  { intros d i j a b M Hd Hi Hj Ha Hb HM.
    rewrite Hcache by lia. rewrite !half_of_window by assumption.
    rewrite (window_max_unique x d i j M _ HM (win_max_is_max x d i j)). reflexivity. }
  split; [exact E |]. split; [exact Hso |]. split; [congruence |].
  split; [| split].
  - intros d i j Hd Hi Hj. rewrite Hout by assumption. apply win_max_is_max.
  - intros d i j a b M Hd Hi Hj Ha Hb HM. rewrite (Hmask d i j a b M) by assumption.
    split; intro Hv.
    + rewrite (proj2 (Qceqb_eq _ _) Hv). reflexivity.
    + destruct (Qceqb _ M) eqn:Eq; [| reflexivity].
      apply Qceqb_eq in Eq. contradiction.
  - intros d i j Hd Hi Hj Hdist.
    destruct (win_max_is_max x d i j) as [Hub (a & b & Ha & Hb & Hab)].
    exists a, b. split; [exact Ha |]. split; [exact Hb |].
    intros a' b' Ha' Hb'.
    rewrite (Hmask d i j a' b' _ Hd Hi Hj Ha' Hb' (win_max_is_max x d i j)).
    destruct (Qceqb _ (win_max x d i j)) eqn:Eq.
    + apply Qceqb_eq in Eq. split; [| reflexivity]. intros _.
      apply Hdist; try assumption. congruence.
    + split.
      * intro E0. symmetry in E0. exfalso. exact (Qc_1_neq_0 E0).
      * intros [-> ->]. rewrite Hab, Qceqb_refl in Eq. discriminate Eq.
Qed.

Lemma maxpool_forward_mask_witness :
  exists out r st',
    MaxPool_call MaxPool_init ex_tied [] = Ok (out, mk_MaxPool (Some r), st') /\
    shape out = [1; 1; 1]%nat /\
    shape (deref st' r) = shape ex_tied.
Proof.
  destruct (maxpool_forward_mask MaxPool_init ex_tied [] 1 1 1 eq_refl)
    as [out [r [st' (E & H1 & H2 & _)]]].
  exists out, r, st'. auto.
Defined.
